(** * FlappyPlane: the game loop, physics, collision and scoring of
    [flappyplane.js], as a shallow embedding.

    JavaScript numbers that carry geometry (positions, sizes, velocity) are
    modelled as exact rationals [Q], so the rounding of binary floating
    point is not part of the model; counters (score, frame count, stored
    best scores) are integers [Z].  The module-level variables of the script
    are the fields of one [Game] record that every function threads through,
    and [Math.random()] is an argument.  A [TypeError] thrown by
    dereferencing the still-undefined [plane] is the [None] of an [option]
    result.  Drawing only reads the state, and [requestAnimationFrame] /
    [cancelAnimationFrame] only tell the host when to call [loop] next; both
    are left out of the game functions.  The host's scheduler is modelled
    on its own in [Page], and what an obstacle draws in [Obstacle_draw]. *)

From Stdlib Require Import ZArith QArith Qminmax Qround Lqa Lia List Bool.
From stdpp Require Import base option list gmap strings.
Import ListNotations.

Local Open Scope Z_scope.

(** ** Numeric comparisons of the script, as booleans *)

Definition Qltb (a b : Q) : bool := negb (Qle_bool b a).
Definition Qgtb (a b : Q) : bool := Qltb b a.

(** ** Game settings *)

Definition CANVAS_WIDTH : Q := 400.
Definition CANVAS_HEIGHT : Q := 600.
Definition PIPE_WIDTH : Q := 50.
Definition PIPE_GAP : Q := 140.
Definition PIPE_SPEED : Q := 3.
Definition PIPE_SPAWN_INTERVAL : Z := 90.
Definition GRAVITY : Q := 0.3.
Definition JUMP_VELOCITY : Q := -6.

(** ** Plane *)

Module Plane.
Record t := mk {
  x : Q;
  y : Q;
  width : Q;
  height : Q;
  velocity : Q;
  tilt : Q
}.

(** [constructor()] *)
Definition new : t :=
  {| x := 50; y := CANVAS_HEIGHT / 2; width := 40; height := 30;
     velocity := 0; tilt := 0 |}.

(** [jump()]: [this.velocity = JUMP_VELOCITY]. *)
Definition jump (p : t) : t :=
  {| x := x p; y := y p; width := width p; height := height p;
     velocity := JUMP_VELOCITY; tilt := tilt p |}.
End Plane.

(** ** Obstacle *)

Module Obstacle.
Record t := mk {
  x : Q;
  width : Q;
  passed : bool;
  topHeight : Q;
  bottomY : Q;
  bottomHeight : Q
}.

Definition minTopHeight : Q := 50.
Definition maxTopHeight : Q := CANVAS_HEIGHT - 50 - PIPE_GAP - 30.

(** [constructor()]; [r] is the value [Math.random()] returns. *)
Definition new (r : Q) : t :=
  let topHeight :=
    (inject_Z (Qfloor (r * (maxTopHeight - minTopHeight + 1))) + minTopHeight)%Q in
  let bottomY := (topHeight + PIPE_GAP)%Q in
  {| x := CANVAS_WIDTH; width := PIPE_WIDTH; passed := false;
     topHeight := topHeight; bottomY := bottomY;
     bottomHeight := CANVAS_HEIGHT - bottomY - 30 |}.

(** [update()]: [this.x -= PIPE_SPEED]. *)
Definition update (o : t) : t :=
  {| x := x o - PIPE_SPEED; width := width o; passed := passed o;
     topHeight := topHeight o; bottomY := bottomY o;
     bottomHeight := bottomHeight o |}.

Definition set_passed (o : t) : t :=
  {| x := x o; width := width o; passed := true;
     topHeight := topHeight o; bottomY := bottomY o;
     bottomHeight := bottomHeight o |}.
End Obstacle.

(** ** Game state: the module-level variables of the script *)

Record Game := mkGame {
  playerName : string;
  bestPlayerScore : Z;
  plane : option Plane.t;
  obstacles : list Obstacle.t;
  score : Z;
  bestScore : Z;
  isGameOver : bool;
  frameCount : Z;
  restartButtonShown : bool;
  (** [localStorage]: the stored decimal strings, as the integers they spell *)
  localStorage : gmap string Z;
  (** every [localStorage.setItem] call made so far, most recent first *)
  setItemLog : list (string * Z)
}.

Definition set_plane (p : option Plane.t) (g : Game) : Game :=
  mkGame (playerName g) (bestPlayerScore g) p (obstacles g) (score g)
    (bestScore g) (isGameOver g) (frameCount g) (restartButtonShown g)
    (localStorage g) (setItemLog g).

Definition set_obstacles (l : list Obstacle.t) (g : Game) : Game :=
  mkGame (playerName g) (bestPlayerScore g) (plane g) l (score g)
    (bestScore g) (isGameOver g) (frameCount g) (restartButtonShown g)
    (localStorage g) (setItemLog g).

Definition set_score (s : Z) (g : Game) : Game :=
  mkGame (playerName g) (bestPlayerScore g) (plane g) (obstacles g) s
    (bestScore g) (isGameOver g) (frameCount g) (restartButtonShown g)
    (localStorage g) (setItemLog g).

Definition set_bestScore (s : Z) (g : Game) : Game :=
  mkGame (playerName g) (bestPlayerScore g) (plane g) (obstacles g) (score g)
    s (isGameOver g) (frameCount g) (restartButtonShown g)
    (localStorage g) (setItemLog g).

Definition set_isGameOver (b : bool) (g : Game) : Game :=
  mkGame (playerName g) (bestPlayerScore g) (plane g) (obstacles g) (score g)
    (bestScore g) b (frameCount g) (restartButtonShown g)
    (localStorage g) (setItemLog g).

Definition set_frameCount (n : Z) (g : Game) : Game :=
  mkGame (playerName g) (bestPlayerScore g) (plane g) (obstacles g) (score g)
    (bestScore g) (isGameOver g) n (restartButtonShown g)
    (localStorage g) (setItemLog g).

Definition set_restartButtonShown (b : bool) (g : Game) : Game :=
  mkGame (playerName g) (bestPlayerScore g) (plane g) (obstacles g) (score g)
    (bestScore g) (isGameOver g) (frameCount g) b
    (localStorage g) (setItemLog g).

(** [localStorage.setItem(key, value)] *)
Definition setItem (key : string) (value : Z) (g : Game) : Game :=
  mkGame (playerName g) (bestPlayerScore g) (plane g) (obstacles g) (score g)
    (bestScore g) (isGameOver g) (frameCount g) (restartButtonShown g)
    (<[key := value]> (localStorage g)) ((key, value) :: setItemLog g).

(** [localStorage.getItem(key) || 0] *)
Definition getItemOr0 (ls : gmap string Z) (key : string) : Z :=
  default 0 (ls !! key).

Definition bestScoreKey : string := "flappyPlaneBestScore".

Definition getPlayerScoreKey (name : string) : string :=
  String.append "flappyPlaneBestScore_" name.

(** The state the top level of the script leaves behind: [storedName] is
    what [localStorage.getItem('playerName')] returns and [ls] the stored
    scores.  [plane] is still undefined and the game starts "over".
    [restartButtonShown] tells whether the script has set the button's
    [style.display] to ['block']: [gameOver] does, [setup] sets it back to
    ['none'].  At load it has not: the top-level [draw()] call reaches
    [plane.draw()] with [plane] still undefined and throws, so the
    assignment on the line after it never runs. *)
Definition boot (storedName : option string) (ls : gmap string Z) : Game :=
  let name :=
    match storedName with
    | Some EmptyString | None => "Player"%string
    | Some s => s
    end in
  {| playerName := name;
     bestPlayerScore := getItemOr0 ls (getPlayerScoreKey name);
     plane := None;
     obstacles := [];
     score := 0;
     bestScore := getItemOr0 ls bestScoreKey;
     isGameOver := true;
     frameCount := 0;
     restartButtonShown := false;
     localStorage := ls;
     setItemLog := [] |}.

(** ** Core game functions *)

(** [gameOver()] *)
Definition gameOver (g : Game) : Game :=
  if isGameOver g then g
  else
    let g := set_isGameOver true g in
    let g :=
      if score g >? bestScore g then
        let g := set_bestScore (score g) g in
        let g := setItem bestScoreKey (bestScore g) g in
        setItem (getPlayerScoreKey (playerName g)) (bestScore g) g
      else g in
    set_restartButtonShown true g.

(** [Plane.update()], on the object [this] and the globals.  [gameOver]
    neither reads nor writes the plane. *)
Definition Plane_update_this (this : Plane.t) (g : Game) : Plane.t * Game :=
  let velocity := (Plane.velocity this + GRAVITY)%Q in
  let y := (Plane.y this + velocity)%Q in
  let tilt := Qmin (Qmax (-20) (velocity * 4)) 45 in
  let this :=
    Plane.mk (Plane.x this) y (Plane.width this) (Plane.height this)
      velocity tilt in
  let '(this, g) :=
    if Qgtb (Plane.y this + Plane.height this) (CANVAS_HEIGHT - 30) then
      let this :=
        Plane.mk (Plane.x this) (CANVAS_HEIGHT - 30 - Plane.height this)
          (Plane.width this) (Plane.height this) 0 (Plane.tilt this) in
      (this, if negb (isGameOver g) then gameOver g else g)
    else (this, g) in
  if Qltb (Plane.y this) 0 then
    (Plane.mk (Plane.x this) 0 (Plane.width this) (Plane.height this)
       0 (Plane.tilt this), g)
  else (this, g).

(** [plane.update()]: the global [plane] is the object the method mutates. *)
Definition Plane_update (g : Game) : option Game :=
  this ← plane g;
  let '(this, g) := Plane_update_this this g in
  Some (set_plane (Some this) g).

(** [setup()] *)
Definition setup (g : Game) : Game :=
  let g := set_plane (Some Plane.new) g in
  let g := set_obstacles [] g in
  let g := set_score 0 g in
  let g := set_frameCount 0 g in
  let g := set_isGameOver false g in
  set_restartButtonShown false g.

(** [spawnObstacle()] *)
Definition spawnObstacle (r : Q) (g : Game) : Game :=
  set_obstacles (obstacles g ++ [Obstacle.new r]) g.

(** The condition under which the loop body of [checkCollision] calls
    [gameOver] and returns. *)
Definition pipe_hit (p : Plane.t) (obs : Obstacle.t) : bool :=
  let x_overlap :=
    Qgtb (Plane.x p + Plane.width p) (Obstacle.x obs)
    && Qltb (Plane.x p) (Obstacle.x obs + Obstacle.width obs) in
  if x_overlap then
    let top_collision := Qltb (Plane.y p) (Obstacle.topHeight obs) in
    let bottom_collision :=
      Qgtb (Plane.y p + Plane.height p) (Obstacle.bottomY obs) in
    top_collision || bottom_collision
  else false.

(** The scoring statement at the end of the loop body. *)
Definition score_obstacle (p : Plane.t) (obs : Obstacle.t) (score : Z)
  : Obstacle.t * Z :=
  if Qgtb (Plane.x p) (Obstacle.x obs + Obstacle.width obs)
     && negb (Obstacle.passed obs)
  then (Obstacle.set_passed obs, score + 1)
  else (obs, score).

(** The [for (const obs of obstacles)] loop: the flag tells whether it
    left through [return true]; the obstacles after the one that was hit
    are not visited. *)
Fixpoint checkCollision_loop (p : Plane.t) (obs : list Obstacle.t) (score : Z)
  : bool * list Obstacle.t * Z :=
  match obs with
  | [] => (false, [], score)
  | o :: rest =>
      if pipe_hit p o then (true, o :: rest, score)
      else
        let '(o, score) := score_obstacle p o score in
        let '(hit, rest, score) := checkCollision_loop p rest score in
        (hit, o :: rest, score)
  end.

(** [checkCollision()] *)
Definition checkCollision (g : Game) : option (bool * Game) :=
  match obstacles g with
  | [] => Some (false, g)
  | _ :: _ =>
      p ← plane g;
      let '(hit, obs, s) := checkCollision_loop p (obstacles g) (score g) in
      let g := set_score s (set_obstacles obs g) in
      Some (hit, if hit then gameOver g else g)
  end.

(** The backwards loop of [update] over the obstacles: the last one is
    moved (and spliced out when off screen) first. *)
Fixpoint update_obstacles (obs : list Obstacle.t) : list Obstacle.t :=
  match obs with
  | [] => []
  | o :: rest =>
      let rest := update_obstacles rest in
      let o := Obstacle.update o in
      if Qltb (Obstacle.x o + Obstacle.width o) 0 then rest else o :: rest
  end.

(** [update()]; [r] is the random draw a spawn in this frame consumes. *)
Definition update (r : Q) (g : Game) : option Game :=
  if isGameOver g then Some g
  else
    g ← Plane_update g;
    let g :=
      if Z.rem (frameCount g) PIPE_SPAWN_INTERVAL =? 0
      then spawnObstacle r g else g in
    let g := set_frameCount (frameCount g + 1) g in
    let g := set_obstacles (update_obstacles (obstacles g)) g in
    '(_, g) ← checkCollision g;
    Some g.

(** [loop()]: one frame.  [draw] reads the state only, and
    [requestAnimationFrame] asks the host for the next frame. *)
Definition loop (r : Q) (g : Game) : option Game := update r g.

(** [startGame()]: [setup()] and then, in the same call, the first
    [loop()]. *)
Definition startGame (r : Q) (g : Game) : option Game :=
  loop r (setup g).

(** [handleInput()] *)
Definition handleInput (r : Q) (g : Game) : option Game :=
  if isGameOver g then startGame r g
  else
    p ← plane g;
    Some (set_plane (Some (Plane.jump p)) g).

(** ** Reading the stored best scores back *)

Definition storedBest (g : Game) : Z :=
  getItemOr0 (localStorage g) bestScoreKey.

Definition storedPlayerBest (g : Game) : Z :=
  getItemOr0 (localStorage g) (getPlayerScoreKey (playerName g)).

(** ** Geometry of a pipe strike *)

(** The half-open horizontal spans [[x, x + width)] of plane and obstacle
    share a point. *)
Definition spans_intersect (p : Plane.t) (o : Obstacle.t) : Prop :=
  exists t : Q,
    (Plane.x p <= t /\ t < Plane.x p + Plane.width p)%Q /\
    (Obstacle.x o <= t /\ t < Obstacle.x o + Obstacle.width o)%Q.

Definition pipe_collision (p : Plane.t) (o : Obstacle.t) : Prop :=
  spans_intersect p o /\
  ((Plane.y p < Obstacle.topHeight o)%Q \/
   (Plane.y p + Plane.height p > Obstacle.bottomY o)%Q).

(** ** Passing an obstacle *)

(** The test of the scoring statement, [p.x > obs.x + obs.width]: the
    plane's [x] is beyond the obstacle's trailing edge. *)
Definition plane_past (p : Plane.t) (obs : Obstacle.t) : bool :=
  Qgtb (Plane.x p) (Obstacle.x obs + Obstacle.width obs).

(** What the scoring statement leaves of an obstacle. *)
Definition checked (p : Plane.t) (obs : Obstacle.t) : Obstacle.t :=
  if plane_past p obs && negb (Obstacle.passed obs)
  then Obstacle.set_passed obs else obs.

(** Number of flags that went from false to true between two snapshots of
    the obstacle list. *)
Fixpoint newly_passed (before after : list Obstacle.t) : Z :=
  match before, after with
  | o :: before, o' :: after =>
      (if negb (Obstacle.passed o) && Obstacle.passed o' then 1 else 0)
      + newly_passed before after
  | _, _ => 0
  end.

(** What the scoring statement may do to an obstacle: nothing, or set the
    flag of one whose flag was false and which the plane has passed. *)
Definition scored_or_same (p : Plane.t) (o o' : Obstacle.t) : Prop :=
  o' = o \/
  (Obstacle.passed o = false /\
   Qgtb (Plane.x p) (Obstacle.x o + Obstacle.width o) = true /\
   o' = Obstacle.set_passed o).

(** ** Reachable states

    A run starts with [startGame] (from the restart button or from an
    input in GameOver, in whatever state the game was); after that the host
    delivers frames and inputs in any order. *)

Inductive reachable : Game -> Prop :=
  | reach_restart r g g' :
      startGame r g = Some g' -> reachable g'
  | reach_frame r g g' :
      reachable g -> loop r g = Some g' -> reachable g'
  | reach_input r g g' :
      reachable g -> handleInput r g = Some g' -> reachable g'.

(** An obstacle as constructed, after [a] calls of its [update]. *)
Definition aged (a : Z) (o : Obstacle.t) : Prop :=
  (Obstacle.x o == CANVAS_WIDTH - PIPE_SPEED * inject_Z a)%Q /\
  Obstacle.width o = PIPE_WIDTH.

(** What the frame counter says about the obstacle list: [a] is the age of
    the newest obstacle. *)
Definition obstacles_inv (t : Z) (obs : list Obstacle.t) : Prop :=
  (t = 0 /\ obs = []) \/
  exists a, 1 <= a <= 90 /\ 0 <= t - a /\ Z.rem (t - a) 90 = 0 /\
    ((exists o, obs = [o] /\ aged a o) \/
     (a <= 60 /\ exists o2 o1, obs = [o2; o1] /\ aged (a + 90) o2 /\ aged a o1)).

(** [n] frames in a row, each spawn drawing [r]. *)
Fixpoint frames (n : nat) (r : Q) (g : Game) : option Game :=
  match n with
  | O => Some g
  | S n => g ← loop r g; frames n r g
  end.

(** The plane after the first frame of a run. *)
Definition plane_after_first_frame : Plane.t :=
  Plane.mk 50 (CANVAS_HEIGHT / 2 + (0 + GRAVITY)) 40 30 (0 + GRAVITY)
    (Qmin (Qmax (-20) ((0 + GRAVITY) * 4)) 45).

(** The state in which [startGame] leaves the game: the reset state, one
    frame later. *)
Definition after_first_frame (r : Q) (g : Game) : Game :=
  mkGame (playerName g) (bestPlayerScore g) (Some plane_after_first_frame)
    [Obstacle.update (Obstacle.new r)] 0 (bestScore g) false 1 false
    (localStorage g) (setItemLog g).

(** ** Sample states *)

(** A fresh page for a player whose name is stored and who has no score
    yet, on a browser where somebody else reached 10. *)
Definition newcomer : Game :=
  boot (Some "Bob"%string) (<[bestScoreKey := 10]> ∅).

(** The same player, five pipes into a run. *)
Definition newcomer_at_5 : Game :=
  set_score 5 (setup newcomer).

(** A run that has just begun: what [startGame] returns on [newcomer]
    when the random draw is 0. *)
Definition first_frame : Game := after_first_frame 0 newcomer.

(** One frame of play: the key press, if there is one, is handled before
    the frame's [loop] call. *)
Definition play_frame (r : Q) (key : bool) (g : Game) : option Game :=
  g ← (if key then handleInput r g else Some g);
  loop r g.

Fixpoint play (r : Q) (keys : list bool) (g : Game) : option Game :=
  match keys with
  | [] => Some g
  | key :: keys => g ← play_frame r key g; play r keys g
  end.

(** The keys of a short run in which every pipe has its gap at
    [[50, 190]]: hold the plane at the ceiling, let it drop into the gap of
    the first pipe, press once inside it, climb back to the ceiling once the
    pipe is passed, and then let go. *)
Definition keys_one_pipe : list bool :=
  replicate 85 true ++ replicate 32 false ++ [true] ++ replicate 15 false
  ++ replicate 20 true ++ replicate 40 false.

(** What is read off the end of a run. *)
Definition run_summary (g : Game) : bool * Z * Z * Z * Z * list (string * Z) :=
  (isGameOver g, score g, bestScore g, storedBest g, storedPlayerBest g,
   setItemLog g).

(** ** Events of the page

    The listeners the script registers, and the frame callback.  Each event
    carries the random draw a spawn would consume while it is handled. *)

Inductive event :=
  | Frame (r : Q)
  | KeyDown (code : string) (r : Q)
  | Click (r : Q)
  | TouchStart (r : Q)
  | RestartClick (r : Q).

Definition event_draw (e : event) : Q :=
  match e with
  | Frame r | KeyDown _ r | Click r | TouchStart r | RestartClick r => r
  end.

(** The [keydown] listener: only the space bar is an input. *)
Definition onKeydown (code : string) (r : Q) (g : Game) : option Game :=
  if String.eqb code "Space" then handleInput r g else Some g.

Definition dispatch (e : event) (g : Game) : option Game :=
  match e with
  | Frame r => loop r g
  | KeyDown code r => onKeydown code r g
  | Click r => handleInput r g
  | TouchStart r => handleInput r g
  | RestartClick r => startGame r g
  end.

Fixpoint session (es : list event) (g : Game) : option Game :=
  match es with
  | [] => Some g
  | e :: es => g ← dispatch e g; session es g
  end.

(** The obstacle list a running frame hands to [checkCollision]: the
    spawn, if one is due, and the backwards loop. *)
Definition next_obstacles (r : Q) (g : Game) : list Obstacle.t :=
  update_obstacles
    (if Z.rem (frameCount g) PIPE_SPAWN_INTERVAL =? 0
     then obstacles g ++ [Obstacle.new r] else obstacles g).

(** ** Invariants of a run *)

(** The plane keeps the constructor's [x] and size, stays between ceiling
    and ground, never rises faster than a jump, and its tilt stays in the
    range the comment in [update] gives. *)
Definition plane_ok (p : Plane.t) : Prop :=
  Plane.x p = 50%Q /\ Plane.width p = 40%Q /\ Plane.height p = 30%Q /\
  (0 <= Plane.y p)%Q /\ (Plane.y p <= 540)%Q /\
  (-6 <= Plane.velocity p)%Q /\
  (-20 <= Plane.tilt p)%Q /\ (Plane.tilt p <= 45)%Q.

(** An obstacle's gap is where the constructor put it. *)
Definition gap_ok (o : Obstacle.t) : Prop :=
  (50 <= Obstacle.topHeight o)%Q /\ (Obstacle.topHeight o <= 380)%Q /\
  (Obstacle.bottomY o == Obstacle.topHeight o + 140)%Q /\
  (Obstacle.bottomHeight o == 570 - Obstacle.bottomY o)%Q.

(** An obstacle of age [a] whose flag says whether age [b] has reached the
    134 updates after which the plane is past it. *)
Definition pipe_at (a b : Z) (o : Obstacle.t) : Prop :=
  aged a o /\ Obstacle.passed o = (134 <=? b).

(** The obstacle list when the newest obstacle is the [(m + 1)]-th of the
    run and has age [a]; [d] is how far the flags lag behind the ages. *)
Definition pipes_at (d m a : Z) (obs : list Obstacle.t) : Prop :=
  if (1 <=? m) && (a <=? 60)
  then exists o2 o1, obs = [o2; o1] /\
         pipe_at (a + 90) (a + 90 - d) o2 /\ pipe_at a (a - d) o1
  else exists o1, obs = [o1] /\ pipe_at a (a - d) o1.

Definition run_inv (g : Game) : Prop :=
  (exists p, plane g = Some p /\ plane_ok p) /\
  restartButtonShown g = isGameOver g /\
  exists m a,
    0 <= m /\ 1 <= a <= 90 /\ frameCount g = 90 * m + a /\
    pipes_at 0 m a (obstacles g) /\
    score g = Z.max 0 ((frameCount g - 44) / 90).

(** A few events on a fresh page: a key that is not the space bar, the
    space bar (which starts the game), frames, a click (a jump), a frame. *)
Definition sample_session : list event :=
  [KeyDown "KeyA" 0; KeyDown "Space" (1 # 3); Frame 0; Frame 0; Click 0;
   Frame 0; TouchStart 0; Frame (1 # 2)].

(** ** What a frame does to the stored scores *)

(** Nothing was written between [g] and [g']. *)
Definition kept (g g' : Game) : Prop :=
  bestScore g' = bestScore g /\
  localStorage g' = localStorage g /\
  setItemLog g' = setItemLog g.

(** Between [g] and [g'] the value [s] was stored as the new best, under
    the overall key and then under the player's key. *)
Definition saved (s : Z) (g g' : Game) : Prop :=
  bestScore g < s /\
  bestScore g' = s /\
  localStorage g' =
    <[getPlayerScoreKey (playerName g) := s]>
      (<[bestScoreKey := s]> (localStorage g)) /\
  setItemLog g' =
    [(getPlayerScoreKey (playerName g), s); (bestScoreKey, s)]
    ++ setItemLog g.

(** ** Drawing an obstacle

    [Obstacle.draw()] as the list of calls it makes on the canvas context,
    in order. *)

Inductive canvas_call :=
  | SetFillStyle (colour : string)
  | FillRect (x y w h : Q).

Definition windowSize : Q := 15.
Definition windowGap : Q := 10.
Definition windowPadding : Q := 5.

(** The inner loop [for (let y = y0; y < limit; y += windowSize +
    windowGap)]: the values of [y] the body runs with.  [fuel] bounds the
    number of rounds. *)
Fixpoint window_rows (fuel : nat) (y limit : Q) : list Q :=
  match fuel with
  | O => []
  | S fuel =>
      if Qltb y limit
      then y :: window_rows fuel (y + (windowSize + windowGap)) limit
      else []
  end.

(** Rounds that are always enough: [y] grows by 25 each round. *)
Definition rows_fuel (y limit : Q) : nat :=
  Z.to_nat (Qceiling (limit - y)).

(** One column of windows: the inner loop with its [fillRect] calls. *)
Definition window_column (windowX y0 limit : Q) : list canvas_call :=
  map (fun y => FillRect windowX y windowSize windowSize)
    (window_rows (rows_fuel y0 limit) y0 limit).

Definition xPositions (obs : Obstacle.t) : list Q :=
  [ (Obstacle.x obs + windowPadding)%Q;
    (Obstacle.x obs + Obstacle.width obs - windowPadding - windowSize)%Q ].

(** The two pairs of loops that draw the windows. *)
Definition Obstacle_windows (obs : Obstacle.t) : list canvas_call :=
  flat_map
    (fun windowX =>
       window_column windowX windowGap (Obstacle.topHeight obs - windowSize))
    (xPositions obs)
  ++
  flat_map
    (fun windowX =>
       window_column windowX (Obstacle.bottomY obs + windowGap)
         (CANVAS_HEIGHT - 30 - windowSize))
    (xPositions obs).

(** [draw()] of an obstacle. *)
Definition Obstacle_draw (this : Obstacle.t) : list canvas_call :=
  [ SetFillStyle "#2886bdff";
    FillRect (Obstacle.x this) 0 (Obstacle.width this)
      (Obstacle.topHeight this);
    FillRect (Obstacle.x this) (Obstacle.bottomY this) (Obstacle.width this)
      (Obstacle.bottomHeight this);
    SetFillStyle "#5B769A";
    FillRect (Obstacle.x this) 0 (Obstacle.width this)
      (Obstacle.topHeight this);
    SetFillStyle "#5B769A";
    FillRect (Obstacle.x this) (Obstacle.bottomY this) (Obstacle.width this)
      (Obstacle.bottomHeight this);
    SetFillStyle "#cfc9c9ff" ]
  ++ Obstacle_windows this.

(** The [i]-th value of the loop variable. *)
Definition window_row (y : Q) (i : nat) : Q :=
  Nat.iter i (fun y => (y + (windowSize + windowGap))%Q) y.

(** A [fillRect] call that paints inside the rectangle of another. *)
Definition paints_inside (c outer : canvas_call) : Prop :=
  match c, outer with
  | FillRect x y w h, FillRect X Y W H =>
      (X <= x)%Q /\ (x + w <= X + W)%Q /\ (Y <= y)%Q /\ (y + h <= Y + H)%Q
  | _, _ => False
  end.

(** ** The frame loop and the host's scheduler

    The page around the game: the variable [animationFrameId], the
    callbacks the host has pending, and the next handle it will give out.
    Handles are positive, as [requestAnimationFrame] returns them. *)

Record Page := mkPage {
  game : Game;
  animationFrameId : option positive;
  pending : gset positive;
  nextHandle : positive
}.

(** The page when the script has run. *)
Definition page_boot (g : Game) : Page := mkPage g None ∅ 1%positive.

(** [cancelAnimationFrame(animationFrameId)]; cancelling [undefined] or a
    handle that is not pending does nothing. *)
Definition cancel_stored (pg : Page) : Page :=
  match animationFrameId pg with
  | Some id =>
      mkPage (game pg) (animationFrameId pg) (pending pg ∖ {[id]})
        (nextHandle pg)
  | None => pg
  end.

(** [animationFrameId = requestAnimationFrame(loop)] *)
Definition request_frame (pg : Page) : Page :=
  mkPage (game pg) (Some (nextHandle pg)) (pending pg ∪ {[nextHandle pg]})
    (Pos.succ (nextHandle pg)).

(** [loop()] on the page.  The [cancelAnimationFrame] of [gameOver] runs
    exactly when a call of [gameOver] gets past its guard, which within
    [update] is when the game goes from running to over; [draw]
    dereferences [plane]. *)
Definition page_loop (r : Q) (pg : Page) : option Page :=
  g ← update r (game pg);
  let pg1 :=
    if negb (isGameOver (game pg)) && isGameOver g
    then cancel_stored pg else pg in
  _ ← plane g;
  Some (request_frame
          (mkPage g (animationFrameId pg1) (pending pg1) (nextHandle pg1))).

(** [startGame()] on the page. *)
Definition page_startGame (r : Q) (pg : Page) : option Page :=
  let pg := cancel_stored pg in
  page_loop r
    (mkPage (setup (game pg)) (animationFrameId pg) (pending pg)
       (nextHandle pg)).

(** [handleInput()] on the page. *)
Definition page_handleInput (r : Q) (pg : Page) : option Page :=
  if isGameOver (game pg) then page_startGame r pg
  else
    g ← handleInput r (game pg);
    Some (mkPage g (animationFrameId pg) (pending pg) (nextHandle pg)).

(** What can happen to the page: the host runs the pending callback [id],
    or delivers one of the events the script listens to. *)
Inductive page_event :=
  | Fire (id : positive) (r : Q)
  | Key (code : string) (r : Q)
  | CanvasClick (r : Q)
  | CanvasTouch (r : Q)
  | ButtonClick (r : Q).

Definition page_dispatch (e : page_event) (pg : Page) : option Page :=
  match e with
  | Fire id r =>
      if decide (id ∈ pending pg)
      then page_loop r
             (mkPage (game pg) (animationFrameId pg) (pending pg ∖ {[id]})
                (nextHandle pg))
      else Some pg
  | Key code r =>
      if String.eqb code "Space" then page_handleInput r pg else Some pg
  | CanvasClick r => page_handleInput r pg
  | CanvasTouch r => page_handleInput r pg
  | ButtonClick r => page_startGame r pg
  end.

Fixpoint page_session (es : list page_event) (pg : Page) : option Page :=
  match es with
  | [] => Some pg
  | e :: es => pg ← page_dispatch e pg; page_session es pg
  end.

(** No callback is pending before the first start; afterwards exactly
    one is, the one [animationFrameId] names. *)
Definition one_loop (pg : Page) : Prop :=
  (animationFrameId pg = None /\ pending pg = ∅) \/
  (exists id, animationFrameId pg = Some id /\ pending pg = {[id]} /\
              (id < nextHandle pg)%positive).

(** The space bar, and then the host firing the first forty callbacks:
    the plane is left to fall and the run ends on the ground. *)
Definition sample_page_session : list page_event :=
  Key "Space" 0 :: map (fun n => Fire (Pos.of_nat n) 0) (seq 1 40).

(** What keeps the handlers from throwing: a plane exists whenever the
    game is running or a callback is pending. *)
Definition page_safe (pg : Page) : Prop :=
  one_loop pg /\
  (isGameOver (game pg) = false \/ pending pg <> ∅ ->
   plane (game pg) <> None).

(** ** The end of a run *)

(** A value [Math.random()] can return. *)
Definition fair (r : Q) : Prop := (0 <= r)%Q /\ (r < 1)%Q.

(** The plane's speed is bounded by its height: [v * v - 0.6 * y] never
    exceeds what a jump at the ceiling gives. *)
Definition energy_ok (p : Plane.t) : Prop :=
  (Plane.velocity p * Plane.velocity p <= 36 + (3 # 5) * Plane.y p)%Q.

(** What holds between frames besides [run_inv], when the draws are fair:
    the gaps are the constructor's, the plane's speed is bounded, and while
    the game runs the plane is clear of every pipe. *)
Definition flight_inv (g : Game) : Prop :=
  Forall gap_ok (obstacles g) /\
  exists p, plane g = Some p /\ plane_ok p /\ energy_ok p /\
    (isGameOver g = false ->
     Forall (fun o => pipe_hit p o = false) (obstacles g)).

(** The events of a sequence of frames, each with or without a click on
    the canvas before it. *)
Definition keys_events (keys : list bool) : list event :=
  flat_map (fun key : bool => if key then [Click 0; Frame 0] else [Frame 0])
    keys.

(** * Properties *)

Lemma Qltb_lt a b : Qltb a b = true <-> (a < b)%Q.
Proof.
  unfold Qltb. rewrite negb_true_iff. split.
  - intros H. apply Qnot_le_lt. intros Hle.
    apply Qle_bool_iff in Hle. congruence.
  - intros H. destruct (Qle_bool b a) eqn:E; [|reflexivity].
    apply Qle_bool_iff in E. exfalso. apply (Qlt_not_le _ _ H E).
Qed.

Lemma Qltb_ge a b : Qltb a b = false <-> (b <= a)%Q.
Proof.
  unfold Qltb. rewrite negb_false_iff. apply Qle_bool_iff.
Qed.

Lemma Qgtb_gt a b : Qgtb a b = true <-> (b < a)%Q.
Proof. apply Qltb_lt. Qed.

Lemma Qgtb_le a b : Qgtb a b = false <-> (a <= b)%Q.
Proof. apply Qltb_ge. Qed.


(** ** The game-over handler *)

Lemma gameOver_when_over g : isGameOver g = true -> gameOver g = g.
Proof. intros H. unfold gameOver. now rewrite H. Qed.

Lemma gameOver_is_over g : isGameOver (gameOver g) = true.
Proof.
  unfold gameOver. destruct (isGameOver g) eqn:E; [exact E|].
  destruct g; cbn. now destruct (_ >? _).
Qed.

Lemma gameOver_gameOver g : gameOver (gameOver g) = gameOver g.
Proof. apply gameOver_when_over, gameOver_is_over. Qed.

Lemma gameOver_keeps g :
  plane (gameOver g) = plane g /\ obstacles (gameOver g) = obstacles g /\
  score (gameOver g) = score g /\ frameCount (gameOver g) = frameCount g /\
  playerName (gameOver g) = playerName g.
Proof.
  unfold gameOver. destruct (isGameOver g); [tauto|].
  destruct g; cbn. now destruct (_ >? _).
Qed.

(** C5: calling the game-over handler in the GameOver state returns the
    state it was given: the flag, the score, the best score, the stored
    values and the record of storage writes are all the same, so nothing is
    written a second time. *)
Theorem gameOver_idempotent (g : Game) :
  isGameOver g = true ->
  gameOver g = g /\
  isGameOver (gameOver g) = true /\
  score (gameOver g) = score g /\
  bestScore (gameOver g) = bestScore g /\
  localStorage (gameOver g) = localStorage g /\
  setItemLog (gameOver g) = setItemLog g.
Proof.
  intros H. rewrite (gameOver_when_over g H). repeat split; auto.
Qed.

Lemma gameOver_idempotent_witness :
  isGameOver (gameOver newcomer_at_5) = true /\
  gameOver (gameOver newcomer_at_5) = gameOver newcomer_at_5.
Proof.
  split; [reflexivity|].
  apply (gameOver_idempotent (gameOver newcomer_at_5)). reflexivity.
Defined.

(** ** Restart *)

Lemma setup_eq g :
  setup g =
  mkGame (playerName g) (bestPlayerScore g) (Some Plane.new) [] 0
    (bestScore g) false 0 false (localStorage g) (setItemLog g).
Proof. reflexivity. Qed.

Lemma loop_setup_eq r g : loop r (setup g) = Some (after_first_frame r g).
Proof. vm_compute. reflexivity. Qed.

Lemma startGame_eq r g : startGame r g = Some (after_first_frame r g).
Proof. unfold startGame. apply loop_setup_eq. Qed.

(** The plane one frame after [setup]: gravity has acted once. *)
Lemma plane_after_first_frame_eq :
  Plane.x plane_after_first_frame = 50%Q /\
  (Plane.y plane_after_first_frame == CANVAS_HEIGHT / 2 + GRAVITY)%Q /\
  (Plane.y plane_after_first_frame == 300 + 3 / 10)%Q /\
  (Plane.velocity plane_after_first_frame == GRAVITY)%Q /\
  (Plane.velocity plane_after_first_frame == 3 / 10)%Q.
Proof. repeat split; vm_compute; reflexivity. Qed.

(** C9, as the code has it: whatever the state before, the start/restart
    action ([startGame], and an input in GameOver) first runs [setup], which
    puts the game into the reset state (score 0, no obstacles, frame count
    0, a new plane at x = 50, y = CANVAS_HEIGHT / 2 with velocity 0,
    Running), and then, in the same call, the first [loop] on that state.
    So when the action returns the score is 0 and the game Running, but the
    frame count is 1, the list holds the first obstacle, already moved once
    to x = 397, and the plane has had one update: x = 50, y = 300.3,
    velocity 0.3.  Player, best scores and storage are as before. *)
Theorem restart_resets (r : Q) (g : Game) :
  let g0 := setup g in
  (score g0 = 0 /\
   obstacles g0 = [] /\
   frameCount g0 = 0 /\
   plane g0 = Some Plane.new /\
   Plane.x Plane.new = 50%Q /\
   Plane.y Plane.new = (CANVAS_HEIGHT / 2)%Q /\
   (Plane.y Plane.new == 300)%Q /\
   Plane.velocity Plane.new = 0%Q /\
   isGameOver g0 = false) /\
  exists g1 p1 o1,
    startGame r g = Some g1 /\
    (isGameOver g = true -> handleInput r g = Some g1) /\
    loop r g0 = Some g1 /\
    score g1 = 0 /\
    isGameOver g1 = false /\
    frameCount g1 = 1 /\
    obstacles g1 = [o1] /\
    o1 = Obstacle.update (Obstacle.new r) /\
    (Obstacle.x o1 == 397)%Q /\
    Obstacle.passed o1 = false /\
    plane g1 = Some p1 /\
    Plane.x p1 = 50%Q /\
    (Plane.y p1 == 300 + 3 / 10)%Q /\
    (Plane.velocity p1 == 3 / 10)%Q /\
    playerName g1 = playerName g /\
    bestPlayerScore g1 = bestPlayerScore g /\
    bestScore g1 = bestScore g /\
    localStorage g1 = localStorage g /\
    setItemLog g1 = setItemLog g.
Proof.
  cbn zeta. split; [repeat split|].
  destruct plane_after_first_frame_eq as (Hx & _ & Hy & _ & Hv).
  exists (after_first_frame r g), plane_after_first_frame,
    (Obstacle.update (Obstacle.new r)).
  split; [apply startGame_eq|].
  split; [intros Ho; unfold handleInput; rewrite Ho; apply startGame_eq|].
  split; [apply loop_setup_eq|].
  do 4 (split; [reflexivity|]). split; [reflexivity|].
  split; [vm_compute; reflexivity|]. split; [reflexivity|].
  split; [reflexivity|]. split; [exact Hx|]. split; [exact Hy|].
  split; [exact Hv|]. repeat split.
Qed.

(** C9, as the claim states it, fails: on a freshly loaded page both the
    restart button's [startGame] and an input return a state whose frame
    count is 1 and not 0, whose obstacle list is not empty, and whose
    plane is not at y = CANVAS_HEIGHT / 2 and does not have velocity 0. *)
Lemma restart_returns_after_first_frame :
  isGameOver newcomer = true /\
  exists g1 p1,
    startGame 0 newcomer = Some g1 /\
    handleInput 0 newcomer = Some g1 /\
    frameCount g1 = 1 /\
    frameCount g1 <> 0 /\
    length (obstacles g1) = 1%nat /\
    obstacles g1 <> [] /\
    plane g1 = Some p1 /\
    ~ (Plane.y p1 == CANVAS_HEIGHT / 2)%Q /\
    ~ (Plane.velocity p1 == 0)%Q.
Proof.
  split; [reflexivity|].
  exists first_frame, plane_after_first_frame.
  split; [apply startGame_eq|].
  split; [unfold handleInput; change (isGameOver newcomer) with true;
          apply startGame_eq|].
  split; [reflexivity|]. split; [discriminate|]. split; [reflexivity|].
  split; [discriminate|]. split; [reflexivity|].
  split; vm_compute; discriminate.
Qed.

(** ** Jump *)

(** C7: [jump] overwrites the velocity with the jump constant -6 whatever
    it was and touches nothing else; an input while Running is that jump;
    an input in GameOver restarts instead, and the plane it leaves behind
    does not have the jump velocity. *)
Theorem jump_overwrites_velocity (r : Q) (g : Game) (p : Plane.t) :
  Plane.velocity (Plane.jump p) = JUMP_VELOCITY /\
  JUMP_VELOCITY = (-6)%Q /\
  Plane.jump p =
    Plane.mk (Plane.x p) (Plane.y p) (Plane.width p) (Plane.height p)
      JUMP_VELOCITY (Plane.tilt p) /\
  (if isGameOver g then
     handleInput r g = startGame r g /\
     exists g' p', handleInput r g = Some g' /\ plane g' = Some p' /\
       ~ (Plane.velocity p' == JUMP_VELOCITY)%Q
   else
     plane g = Some p ->
     handleInput r g = Some (set_plane (Some (Plane.jump p)) g)).
Proof.
  repeat split. unfold handleInput. destruct (isGameOver g).
  - split; [reflexivity|]. rewrite startGame_eq.
    eexists _, _. split; [reflexivity|]. split; [reflexivity|].
    cbn. discriminate.
  - intros ->. reflexivity.
Qed.

Lemma jump_overwrites_velocity_witness :
  plane first_frame = Some plane_after_first_frame /\
  isGameOver first_frame = false /\
  handleInput 0 first_frame =
    Some (set_plane (Some (Plane.jump plane_after_first_frame)) first_frame) /\
  Plane.velocity (Plane.jump plane_after_first_frame) = (-6)%Q.
Proof.
  split; [reflexivity|]. split; [reflexivity|].
  pose proof (jump_overwrites_velocity 0 first_frame plane_after_first_frame)
    as (H1 & _ & _ & H).
  split; [|exact H1].
  cbv [first_frame after_first_frame isGameOver] in H.
  apply H. reflexivity.
Defined.

(** ** The plane's update *)

Ltac Qcmp :=
  repeat match goal with
  | |- context [Qgtb ?a ?b] =>
      let E := fresh "E" in
      destruct (Qgtb a b) eqn:E;
      [apply Qgtb_gt in E | apply Qgtb_le in E]
  | |- context [Qltb ?a ?b] =>
      let E := fresh "E" in
      destruct (Qltb a b) eqn:E;
      [apply Qltb_lt in E | apply Qltb_ge in E]
  end.

Ltac Qconsts :=
  unfold CANVAS_HEIGHT, CANVAS_WIDTH, PIPE_WIDTH, PIPE_GAP, PIPE_SPEED,
    GRAVITY, JUMP_VELOCITY in *.

(** C3: after [update] the plane's [y] lies in [[0, floor - height]], the
    floor being CANVAS_HEIGHT - 30 (so in [[0, 540]] for the height 30 the
    constructor gives), and if [y] had to be clamped to either bound the
    velocity is 0 afterwards. *)
Theorem Plane_update_clamps (g : Game) (p : Plane.t) :
  plane g = Some p ->
  (Plane.height p <= CANVAS_HEIGHT - 30)%Q ->
  exists g' p',
    Plane_update g = Some g' /\ plane g' = Some p' /\
    Plane.height p' = Plane.height p /\
    (0 <= Plane.y p')%Q /\
    (Plane.y p' <= CANVAS_HEIGHT - 30 - Plane.height p)%Q /\
    ((Plane.height p == 30)%Q -> (Plane.y p' <= 600 - 30 - 30)%Q) /\
    (let y1 := (Plane.y p + (Plane.velocity p + GRAVITY))%Q in
     (y1 + Plane.height p > CANVAS_HEIGHT - 30)%Q \/ (y1 < 0)%Q ->
     Plane.velocity p' = 0%Q).
Proof.
  intros Hp Hh. unfold Plane_update, Plane_update_this. rewrite Hp. cbn.
  Qcmp; cbn in *; eexists _, _;
    (split; [reflexivity|]); (split; [reflexivity|]); cbn;
    (split; [reflexivity|]); Qconsts;
    repeat split; intros; try reflexivity; try lra.
Qed.

Lemma Plane_update_clamps_witness :
  exists g' p',
    Plane_update (setup newcomer) = Some g' /\ plane g' = Some p' /\
    (0 <= Plane.y p')%Q /\ (Plane.y p' <= 600 - 30 - 30)%Q.
Proof.
  destruct (Plane_update_clamps (setup newcomer) Plane.new)
    as (g' & p' & H1 & H2 & _ & H3 & _ & H4 & _).
  - reflexivity.
  - vm_compute. discriminate.
  - exists g', p'. repeat split; auto. apply H4. reflexivity.
Defined.

(** C6: when, after gravity, [y + height] is beyond the floor line, the
    update puts the plane on the floor with velocity 0 and the rest of the
    state is what [gameOver] makes of it (which does nothing if the game is
    over already), so the game is over afterwards; when [y] is negative
    after gravity, the update puts the plane at [y = 0] with velocity 0 and
    leaves the rest of the state, the game-over flag included, as it was. *)
Theorem ground_terminal_ceiling_not (g : Game) (p : Plane.t) :
  plane g = Some p ->
  (Plane.height p <= CANVAS_HEIGHT - 30)%Q ->
  let y1 := (Plane.y p + (Plane.velocity p + GRAVITY))%Q in
  ((y1 + Plane.height p > CANVAS_HEIGHT - 30)%Q ->
   exists p',
     Plane_update g = Some (set_plane (Some p') (gameOver g)) /\
     Plane.y p' = (CANVAS_HEIGHT - 30 - Plane.height p)%Q /\
     Plane.velocity p' = 0%Q /\
     isGameOver (set_plane (Some p') (gameOver g)) = true) /\
  ((y1 < 0)%Q ->
   exists p',
     Plane_update g = Some (set_plane (Some p') g) /\
     Plane.y p' = 0%Q /\
     Plane.velocity p' = 0%Q /\
     isGameOver (set_plane (Some p') g) = isGameOver g).
Proof.
  intros Hp Hh y1. subst y1. split; intros Hy.
  - unfold Plane_update, Plane_update_this. rewrite Hp. cbn.
    Qcmp; cbn in *; Qconsts; try lra.
    eexists. split.
    + destruct (isGameOver g) eqn:Eo; cbn;
        [rewrite (gameOver_when_over g Eo)|]; reflexivity.
    + cbn. repeat split. apply gameOver_is_over.
  - unfold Plane_update, Plane_update_this. rewrite Hp. cbn.
    Qcmp; cbn in *; Qconsts; try lra.
    eexists. split; [reflexivity|]. cbn. repeat split.
Qed.

Lemma ground_terminal_ceiling_not_witness :
  let low := Plane.mk 50 539 40 30 5 0 in
  let high := Plane.mk 50 2 40 30 (-6) 0 in
  (exists p', Plane_update (set_plane (Some low) (setup newcomer)) =
              Some (set_plane (Some p') (gameOver (set_plane (Some low) (setup newcomer)))) /\
              Plane.y p' = (CANVAS_HEIGHT - 30 - 30)%Q) /\
  (exists p', Plane_update (set_plane (Some high) (setup newcomer)) =
              Some (set_plane (Some p') (set_plane (Some high) (setup newcomer))) /\
              Plane.y p' = 0%Q).
Proof.
  intros low high. split.
  - destruct (ground_terminal_ceiling_not
                (set_plane (Some low) (setup newcomer)) low) as [H _].
    + reflexivity.
    + vm_compute. discriminate.
    + destruct H as (p' & H1 & H2 & _).
      * vm_compute. reflexivity.
      * exists p'. split; [exact H1 | exact H2].
  - destruct (ground_terminal_ceiling_not
                (set_plane (Some high) (setup newcomer)) high) as [_ H].
    + reflexivity.
    + vm_compute. discriminate.
    + destruct H as (p' & H1 & H2 & _).
      * vm_compute. reflexivity.
      * exists p'. split; [exact H1 | exact H2].
Defined.

(** ** Obstacle construction *)

Lemma Qfloor_scaled_range (r : Q) (n : Z) :
  (0 < n)%Z -> (0 <= r)%Q -> (r < 1)%Q ->
  (0 <= Qfloor (r * inject_Z n) <= n - 1)%Z.
Proof.
  intros Hn H0 H1.
  assert (Hn' : (inject_Z 0 < inject_Z n)%Q) by (rewrite <- Zlt_Qlt; exact Hn).
  change (inject_Z 0) with 0%Q in Hn'.
  split.
  - rewrite <- (Qfloor_Z 0). apply Qfloor_resp_le.
    change (inject_Z 0) with 0%Q. nra.
  - assert (H : (inject_Z (Qfloor (r * inject_Z n)) < inject_Z n)%Q).
    { eapply Qle_lt_trans; [apply Qfloor_le|]. nra. }
    rewrite <- Zlt_Qlt in H. lia.
Qed.

(** C8: for every random draw in [[0, 1)], with gap 140, canvas height 600
    and ground height 30, a new obstacle has 50 <= topHeight <= 380 and
    bottomHeight = 600 - (topHeight + 140) - 30 >= 0: the gap
    [[topHeight, bottomY]] of height 140 lies between the top of the canvas
    and the ground line 570. *)
Theorem Obstacle_new_bounds (r : Q) :
  (0 <= r)%Q -> (r < 1)%Q ->
  let o := Obstacle.new r in
  (50 <= Obstacle.topHeight o)%Q /\
  (Obstacle.topHeight o <= 380)%Q /\
  (Obstacle.bottomHeight o == 600 - (Obstacle.topHeight o + 140) - 30)%Q /\
  (0 <= Obstacle.bottomHeight o)%Q /\
  (Obstacle.bottomY o == Obstacle.topHeight o + 140)%Q /\
  (Obstacle.bottomY o <= 600 - 30)%Q /\
  PIPE_GAP = 140%Q /\ CANVAS_HEIGHT = 600%Q.
Proof.
  intros H0 H1 o.
  pose proof (Qfloor_scaled_range r 331 eq_refl H0 H1) as [Hlo Hhi].
  assert (E : (Obstacle.topHeight o ==
               inject_Z (Qfloor (r * inject_Z 331)) + 50)%Q).
  { subst o. cbn [Obstacle.new Obstacle.topHeight]. reflexivity. }
  rewrite Zle_Qle in Hlo. rewrite Zle_Qle in Hhi.
  change (inject_Z 0) with 0%Q in Hlo.
  change (inject_Z (331 - 1)) with 330%Q in Hhi.
  assert (Eb : (Obstacle.bottomY o == Obstacle.topHeight o + 140)%Q).
  { subst o. cbn. Qconsts. reflexivity. }
  assert (Eh : (Obstacle.bottomHeight o == 600 - Obstacle.bottomY o - 30)%Q).
  { subst o. cbn. Qconsts. reflexivity. }
  repeat split; try reflexivity; try lra.
Qed.

Lemma Obstacle_new_bounds_witness :
  (50 <= Obstacle.topHeight (Obstacle.new (1 # 2)))%Q /\
  (Obstacle.topHeight (Obstacle.new (1 # 2)) <= 380)%Q /\
  (0 <= Obstacle.bottomHeight (Obstacle.new (1 # 2)))%Q.
Proof.
  destruct (Obstacle_new_bounds (1 # 2)) as (H1 & H2 & _ & H3 & _).
  - vm_compute. discriminate.
  - reflexivity.
  - auto.
Defined.

(** ** Best scores *)

Lemma gameOver_bestScore_max g :
  isGameOver g = false ->
  bestScore (gameOver g) = Z.max (bestScore g) (score g).
Proof.
  intros H. unfold gameOver. rewrite H. destruct g; cbn.
  destruct (Z.gtb_spec score0 bestScore0); cbn; lia.
Qed.

Lemma gameOver_storedBest_max g :
  isGameOver g = false ->
  storedBest g = bestScore g ->
  storedBest (gameOver g) = Z.max (storedBest g) (score g) /\
  storedBest (gameOver g) = bestScore (gameOver g).
Proof.
  intros H. unfold gameOver, storedBest, getItemOr0. rewrite H.
  destruct g; cbn. intros E.
  destruct (Z.gtb_spec score0 bestScore0); cbn.
  - rewrite lookup_insert_ne by (unfold getPlayerScoreKey; discriminate).
    rewrite lookup_insert_eq. cbn. lia.
  - lia.
Qed.

(** What a run's end does to the per-player entry: it is written exactly
    when the global best is beaten. *)
Lemma gameOver_storedPlayerBest g :
  isGameOver g = false ->
  storedPlayerBest (gameOver g) =
    if score g >? bestScore g then score g else storedPlayerBest g.
Proof.
  intros H. unfold gameOver, storedPlayerBest, getItemOr0. rewrite H.
  destruct g; cbn. destruct (_ >? _); cbn; [|reflexivity].
  now rewrite lookup_insert_eq.
Qed.

(** A player with no score yet, on a browser whose overall best is 10,
    ends a run with score 5: nothing is written, so the player's own
    entry stays absent. *)
Example gameOver_newcomer_at_5 :
  isGameOver newcomer_at_5 = false /\
  score newcomer_at_5 = 5 /\
  storedBest newcomer_at_5 = 10 /\
  storedPlayerBest newcomer_at_5 = 0 /\
  bestPlayerScore newcomer_at_5 = 0 /\
  let g' := gameOver newcomer_at_5 in
  isGameOver g' = true /\
  storedBest g' = Z.max (storedBest newcomer_at_5) (score newcomer_at_5) /\
  bestScore g' = Z.max (bestScore newcomer_at_5) (score newcomer_at_5) /\
  storedPlayerBest g' = 0 /\
  storedPlayerBest g' <>
    Z.max (storedPlayerBest newcomer_at_5) (score newcomer_at_5) /\
  setItemLog g' = [].
Proof.
  vm_compute. repeat split; congruence.
Qed.

(** ** Pipe strikes *)

Lemma pipe_hit_iff p o :
  (0 < Plane.width p)%Q -> (0 < Obstacle.width o)%Q ->
  pipe_hit p o = true <-> pipe_collision p o.
Proof.
  intros Hp Ho. unfold pipe_hit, pipe_collision, spans_intersect. split.
  - Qcmp; cbn; try discriminate; intros _.
    all: split; [|lra].
    all: destruct (Qlt_le_dec (Plane.x p) (Obstacle.x o));
      [exists (Obstacle.x o) | exists (Plane.x p)]; lra.
  - intros [(t & Ht1 & Ht2) Hv].
    Qcmp; cbn; try reflexivity; lra.
Qed.

Lemma pipe_hit_false_iff p o :
  (0 < Plane.width p)%Q -> (0 < Obstacle.width o)%Q ->
  pipe_hit p o = false <-> ~ pipe_collision p o.
Proof.
  intros Hp Ho. rewrite <- (pipe_hit_iff p o Hp Ho).
  destruct (pipe_hit p o); split; congruence.
Qed.

Lemma checkCollision_loop_length p obs s :
  length (checkCollision_loop p obs s).1.2 = length obs.
Proof.
  revert s. induction obs as [|o rest IH]; intros s; cbn; [reflexivity|].
  destruct (pipe_hit p o); [reflexivity|].
  destruct (score_obstacle p o s) as [o' s1].
  specialize (IH s1). destruct (checkCollision_loop p rest s1) as [[h r] s2].
  cbn in *. now rewrite IH.
Qed.

Lemma checkCollision_loop_stops p obs s :
  let '(hit, obs', _) := checkCollision_loop p obs s in
  if hit then
    exists pre o post pre',
      obs = pre ++ o :: post /\
      Forall (fun o => pipe_hit p o = false) pre /\
      pipe_hit p o = true /\
      obs' = pre' ++ o :: post /\ length pre' = length pre
  else Forall (fun o => pipe_hit p o = false) obs.
Proof.
  revert s. induction obs as [|o rest IH]; intros s; cbn.
  - constructor.
  - destruct (pipe_hit p o) eqn:E.
    + exists [], o, rest, []. repeat split; auto.
    + destruct (score_obstacle p o s) as [o' s1].
      specialize (IH s1).
      destruct (checkCollision_loop p rest s1) as [[h r] s2].
      destruct h.
      * destruct IH as (pre & o1 & post & pre' & -> & Hf & Hh & -> & Hl).
        exists (o :: pre), o1, post, (o' :: pre').
        repeat split; auto. cbn. now rewrite Hl.
      * constructor; assumption.
Qed.

(** C2: with the plane and the obstacles having positive widths,
    [checkCollision] returns true exactly when some obstacle's horizontal
    span meets the plane's and the plane's top is above that obstacle's
    [topHeight] or the plane's bottom below its [bottomY].  It then leaves
    the game over, and the obstacle it stopped at, which is the first such
    one, and all obstacles after it are as they were.  When it returns
    false the game-over flag is unchanged.  A plane at x = 50 of width 40
    never strikes an obstacle at x = 100 of width 50, whatever its [y]. *)
Theorem checkCollision_pipe_strike (g : Game) (p : Plane.t) :
  plane g = Some p ->
  (0 < Plane.width p)%Q ->
  Forall (fun o => (0 < Obstacle.width o)%Q) (obstacles g) ->
  (exists hit g',
     checkCollision g = Some (hit, g') /\
     (hit = true <-> Exists (pipe_collision p) (obstacles g)) /\
     (if hit then
        isGameOver g' = true /\
        exists pre o post pre',
          obstacles g = pre ++ o :: post /\
          Forall (fun o => ~ pipe_collision p o) pre /\
          pipe_collision p o /\
          obstacles g' = pre' ++ o :: post /\ length pre' = length pre
      else isGameOver g' = isGameOver g)) /\
  (forall (q : Plane.t) (o : Obstacle.t),
     (Plane.x q == 50)%Q -> (Plane.width q == 40)%Q ->
     (Obstacle.x o == 100)%Q -> (Obstacle.width o == 50)%Q ->
     pipe_hit q o = false /\ ~ pipe_collision q o).
Proof.
  intros Hp Hw Hws. split.
  - unfold checkCollision. destruct (obstacles g) as [|o0 rest] eqn:Eobs.
    + exists false, g. split; [reflexivity|]. split; [|reflexivity].
      split; [discriminate|]. intros H. inversion H.
    + rewrite Hp. cbn [mbind option_bind].
      pose proof (checkCollision_loop_stops p (o0 :: rest) (score g)) as Hs.
      destruct (checkCollision_loop p (o0 :: rest) (score g))
        as [[hit obs'] s'].
      eexists hit, _. split; [reflexivity|].
      destruct hit.
      * destruct Hs as (pre & o & post & pre' & E & Hf & Hh & -> & Hl).
        assert (Ho : (0 < Obstacle.width o)%Q).
        { rewrite E in Hws. apply Forall_app in Hws as [_ Hws].
          now inversion Hws. }
        assert (Hc : pipe_collision p o) by now apply pipe_hit_iff.
        assert (Hpre : Forall (fun o => ~ pipe_collision p o) pre).
        { rewrite E in Hws. apply Forall_app in Hws as [Hws _].
          rewrite Forall_forall in *. intros z Hz.
          apply pipe_hit_false_iff; auto. }
        split.
        { split; [intros _|reflexivity]. rewrite E.
          apply Exists_app. right. now constructor. }
        split; [apply gameOver_is_over|].
        exists pre, o, post, pre'.
        destruct (gameOver_keeps
                    (set_score s' (set_obstacles (pre' ++ o :: post) g)))
          as (_ & -> & _).
        split; [exact E|]. split; [exact Hpre|]. split; [exact Hc|].
        split; [reflexivity|exact Hl].
      * split; [|reflexivity]. split; [discriminate|].
        intros Hex. exfalso. apply Exists_exists in Hex as (z & Hz & Hcz).
        rewrite Forall_forall in Hs, Hws.
        apply (pipe_hit_false_iff p z Hw (Hws z Hz)); auto.
  - intros q o Hx Hwq Hxo Hwo.
    assert (E : pipe_hit q o = false).
    { unfold pipe_hit. Qcmp; cbn; try reflexivity; lra. }
    split; [exact E|].
    apply pipe_hit_false_iff; auto; lra.
Qed.

Lemma checkCollision_pipe_strike_witness :
  exists hit g',
    checkCollision first_frame = Some (hit, g') /\
    (hit = true <->
     Exists (pipe_collision plane_after_first_frame) (obstacles first_frame)).
Proof.
  destruct (checkCollision_pipe_strike first_frame plane_after_first_frame)
    as [(hit & g' & H1 & H2 & _) _].
  - reflexivity.
  - reflexivity.
  - repeat constructor.
  - exists hit, g'. split; [exact H1 | exact H2].
Defined.

(** ** Scoring *)

Lemma score_obstacle_passed p o s :
  Obstacle.passed o = true -> score_obstacle p o s = (o, s).
Proof.
  intros H. unfold score_obstacle. rewrite H.
  now rewrite andb_false_r.
Qed.

Lemma score_obstacle_fresh p o s :
  Obstacle.passed o = false ->
  score_obstacle p o s =
    if Qgtb (Plane.x p) (Obstacle.x o + Obstacle.width o)
    then (Obstacle.set_passed o, s + 1) else (o, s).
Proof.
  intros H. unfold score_obstacle. rewrite H.
  now rewrite andb_true_r.
Qed.

Lemma checkCollision_loop_scores p obs s :
  let '(_, obs', s') := checkCollision_loop p obs s in
  s' = s + newly_passed obs obs' /\
  Forall2 (scored_or_same p) obs obs'.
Proof.
  assert (Hsame : forall l : list Obstacle.t,
             newly_passed l l = 0 /\
             Forall2 (scored_or_same p) l l).
  { induction l as [|a l [IH1 IH2]]; cbn; [split; [reflexivity|constructor]|].
    split; [|constructor; unfold scored_or_same; auto].
    rewrite IH1. destruct (Obstacle.passed a); reflexivity. }
  revert s. induction obs as [|o rest IH]; intros s; cbn.
  - split; [lia|constructor].
  - destruct (pipe_hit p o).
    + destruct (Hsame (o :: rest)) as [E F]. cbn in E. rewrite E.
      split; [lia|exact F].
    + destruct (Obstacle.passed o) eqn:Ep.
      * rewrite (score_obstacle_passed p o s Ep).
        specialize (IH s).
        destruct (checkCollision_loop p rest s) as [[h r] s2].
        destruct IH as [IH1 IH2]. cbn; rewrite ?Ep; cbn.
        split; [lia|constructor; unfold scored_or_same; auto].
      * rewrite (score_obstacle_fresh p o s Ep).
        destruct (Qgtb (Plane.x p) (Obstacle.x o + Obstacle.width o)) eqn:Ec.
        -- specialize (IH (s + 1)).
           destruct (checkCollision_loop p rest (s + 1)) as [[h r] s2].
           destruct IH as [IH1 IH2]. cbn; rewrite ?Ep; cbn.
           split; [lia|constructor; unfold scored_or_same; auto].
        -- specialize (IH s).
           destruct (checkCollision_loop p rest s) as [[h r] s2].
           destruct IH as [IH1 IH2]. cbn; rewrite ?Ep; cbn.
           split; [lia|constructor; unfold scored_or_same; auto].
Qed.

(** ** How many obstacles there are *)

Lemma aged_new r : aged 0 (Obstacle.new r).
Proof. split; [|reflexivity]. cbn. Qconsts. reflexivity. Qed.

Lemma aged_update a o : aged a o -> aged (a + 1) (Obstacle.update o).
Proof.
  intros [Hx Hw]. split; [|exact Hw]. cbn.
  rewrite inject_Z_plus. Qconsts. rewrite Hx.
  change (inject_Z 1) with 1%Q. ring.
Qed.

Lemma aged_offscreen a o :
  aged a o ->
  Qltb (Obstacle.x o + Obstacle.width o) 0 = (150 <? a).
Proof.
  intros [Hx Hw]. rewrite Hw. Qconsts.
  destruct (Z.ltb_spec 150 a) as [H|H].
  - apply Qltb_lt. rewrite Zlt_Qlt in H.
    change (inject_Z 150) with 150%Q in H. lra.
  - apply Qltb_ge. rewrite Zle_Qle in H.
    change (inject_Z 150) with 150%Q in H. lra.
Qed.

Lemma aged_onscreen a o :
  aged a o -> a <= 150 -> (0 <= Obstacle.x o + Obstacle.width o)%Q.
Proof.
  intros Ha H. apply Qltb_ge. rewrite (aged_offscreen a o Ha).
  apply Z.ltb_ge. exact H.
Qed.

Lemma update_obstacles_one a o :
  aged a o ->
  update_obstacles [o] = if 150 <? a + 1 then [] else [Obstacle.update o].
Proof.
  intros H. cbn [update_obstacles].
  now rewrite (aged_offscreen _ _ (aged_update a o H)).
Qed.

Lemma update_obstacles_two a b o2 o1 :
  aged a o2 -> aged b o1 ->
  update_obstacles [o2; o1] =
    (if 150 <? a + 1 then [] else [Obstacle.update o2]) ++
    (if 150 <? b + 1 then [] else [Obstacle.update o1]).
Proof.
  intros H2 H1. cbn [update_obstacles].
  rewrite (aged_offscreen _ _ (aged_update a o2 H2)).
  rewrite (aged_offscreen _ _ (aged_update b o1 H1)).
  destruct (150 <? a + 1), (150 <? b + 1); reflexivity.
Qed.

Lemma spawn_move_inv t obs r :
  obstacles_inv t obs ->
  obstacles_inv (t + 1)
    (update_obstacles
       (if Z.rem t PIPE_SPAWN_INTERVAL =? 0
        then obs ++ [Obstacle.new r] else obs)).
Proof.
  unfold PIPE_SPAWN_INTERVAL.
  intros [[-> ->] | (a & Ha & Ht & Hr & Hshape)].
  - change (Z.rem 0 90 =? 0) with true. cbn [app].
    rewrite (update_obstacles_one 0 _ (aged_new r)). cbn.
    right. exists 1. repeat split; try lia.
    left. eexists. split; [reflexivity|]. apply (aged_update 0), aged_new.
  - destruct Hshape as [(o & -> & Ho) | (Ha60 & o2 & o1 & -> & Ho2 & Ho1)].
    + destruct (Z.eqb_spec (Z.rem t 90) 0) as [E|E].
      * assert (a = 90) by (revert Hr E; Z.quot_rem_to_equations; lia).
        subst a. cbn [app].
        rewrite (update_obstacles_two 90 0 o (Obstacle.new r) Ho (aged_new r)).
        cbn. right. exists 1. split; [lia|]. split; [lia|].
        split; [replace (t + 1 - 1) with t by lia; exact E|].
        right. split; [lia|]. eexists _, _. split; [reflexivity|].
        split; [apply (aged_update 90), Ho | apply (aged_update 0), aged_new].
      * assert (a < 90) by (revert Hr E; Z.quot_rem_to_equations; lia).
        rewrite (update_obstacles_one a o Ho).
        destruct (Z.ltb_spec 150 (a + 1)); [lia|].
        right. exists (a + 1). split; [lia|]. split; [lia|].
        split; [replace (t + 1 - (a + 1)) with (t - a) by lia; exact Hr|].
        left. eexists. split; [reflexivity|]. now apply aged_update.
    + destruct (Z.eqb_spec (Z.rem t 90) 0) as [E|E].
      { exfalso. revert Hr E. Z.quot_rem_to_equations. lia. }
      rewrite (update_obstacles_two (a + 90) a o2 o1 Ho2 Ho1).
      destruct (Z.ltb_spec 150 (a + 1)); [lia|].
      right. exists (a + 1). split; [lia|]. split; [lia|].
      split; [replace (t + 1 - (a + 1)) with (t - a) by lia; exact Hr|].
      destruct (Z.ltb_spec 150 (a + 90 + 1)); cbn.
      * left. eexists. split; [reflexivity|]. now apply aged_update.
      * right. split; [lia|]. eexists _, _. split; [reflexivity|].
        split; [|now apply aged_update].
        replace (a + 1 + 90) with (a + 90 + 1) by lia. now apply aged_update.
Qed.

Lemma aged_scored p a o o' : scored_or_same p o o' -> aged a o -> aged a o'.
Proof. intros [-> | (_ & _ & ->)] H; exact H. Qed.

Lemma obstacles_inv_scored p t obs obs' :
  Forall2 (scored_or_same p) obs obs' ->
  obstacles_inv t obs -> obstacles_inv t obs'.
Proof.
  intros F [[-> ->] | (a & Ha & Ht & Hr & Hshape)].
  - inversion F. left. auto.
  - right. exists a. repeat (split; [assumption|]).
    destruct Hshape as [(o & -> & Ho) | (Ha60 & o2 & o1 & -> & Ho2 & Ho1)].
    + inversion F as [|? o' ? ? S1 F1]; subst. inversion F1; subst.
      left. exists o'. split; [reflexivity|]. eapply aged_scored; eauto.
    + inversion F as [|? o2' ? ? S2 F2]; subst.
      inversion F2 as [|? o1' ? ? S1 F1]; subst. inversion F1; subst.
      right. split; [assumption|]. exists o2', o1'.
      split; [reflexivity|]. split; eapply aged_scored; eauto.
Qed.

Lemma Plane_update_this_globals this g :
  (Plane_update_this this g).2 = g \/ (Plane_update_this this g).2 = gameOver g.
Proof.
  unfold Plane_update_this. cbn.
  destruct (Qgtb _ _); cbn.
  - destruct (isGameOver g) eqn:E; cbn; destruct (Qltb _ _); cbn; auto.
  - destruct (Qltb _ _); cbn; auto.
Qed.

Lemma Plane_update_keeps g g' :
  Plane_update g = Some g' ->
  obstacles g' = obstacles g /\ frameCount g' = frameCount g /\
  plane g' <> None.
Proof.
  unfold Plane_update. destruct (plane g) as [this|]; [|discriminate].
  cbn. pose proof (Plane_update_this_globals this g) as H.
  destruct (Plane_update_this this g) as [this' g1]. cbn in H.
  intros [= <-]. cbn. split; [|split; [|discriminate]].
  - destruct H as [-> | ->]; [reflexivity|apply gameOver_keeps].
  - destruct H as [-> | ->]; [reflexivity|apply gameOver_keeps].
Qed.

Lemma checkCollision_keeps g hit g' :
  checkCollision g = Some (hit, g') ->
  frameCount g' = frameCount g /\
  exists p, Forall2 (scored_or_same p) (obstacles g) (obstacles g').
Proof.
  unfold checkCollision. destruct (obstacles g) as [|o0 rest] eqn:Eobs.
  - intros [= <- <-]. split; [reflexivity|]. exists Plane.new.
    rewrite Eobs. constructor.
  - destruct (plane g) as [p|]; [|discriminate]. cbn [mbind option_bind].
    pose proof (checkCollision_loop_scores p (o0 :: rest) (score g)) as Hs.
    destruct (checkCollision_loop p (o0 :: rest) (score g)) as [[h obs'] s'].
    destruct Hs as [_ HF]. intros [= <- <-].
    destruct h.
    + destruct (gameOver_keeps (set_score s' (set_obstacles obs' g)))
        as (_ & -> & _ & -> & _).
      split; [reflexivity|]. exists p. exact HF.
    + split; [reflexivity|]. exists p. exact HF.
Qed.

Lemma update_inv r g g' :
  update r g = Some g' ->
  obstacles_inv (frameCount g) (obstacles g) ->
  obstacles_inv (frameCount g') (obstacles g').
Proof.
  unfold update. destruct (isGameOver g); [now intros [= <-]|].
  destruct (Plane_update g) as [g1|] eqn:E1; [|discriminate].
  cbn [mbind option_bind].
  destruct (Plane_update_keeps g g1 E1) as (Eo & Ef & _).
  set (g4 := set_obstacles _ _).
  destruct (checkCollision g4) as [[hit g5]|] eqn:E5; [|discriminate].
  cbn. intros [= <-] Hinv.
  destruct (checkCollision_keeps g4 hit g5 E5) as (-> & p & HF).
  apply (obstacles_inv_scored p _ _ _ HF).
  subst g4. rewrite <- Eo, <- Ef in Hinv.
  pose proof (spawn_move_inv _ _ r Hinv) as H.
  destruct (Z.rem (frameCount g1) PIPE_SPAWN_INTERVAL =? 0); exact H.
Qed.

Lemma handleInput_inv r g g' :
  handleInput r g = Some g' ->
  obstacles_inv (frameCount g) (obstacles g) ->
  obstacles_inv (frameCount g') (obstacles g').
Proof.
  unfold handleInput. destruct (isGameOver g).
  - rewrite startGame_eq. intros [= <-] _. cbn.
    right. exists 1. split; [lia|]. split; [lia|]. split; [reflexivity|].
    left. eexists. split; [reflexivity|]. apply (aged_update 0), aged_new.
  - destruct (plane g); [|discriminate]. now intros [= <-].
Qed.

Lemma reachable_inv g :
  reachable g -> obstacles_inv (frameCount g) (obstacles g).
Proof.
  induction 1 as [r g g' H | r g g' _ IH H | r g g' _ IH H].
  - rewrite startGame_eq in H. injection H as <-. cbn.
    right. exists 1. split; [lia|]. split; [lia|]. split; [reflexivity|].
    left. eexists. split; [reflexivity|]. apply (aged_update 0), aged_new.
  - exact (update_inv r g g' H IH).
  - exact (handleInput_inv r g g' H IH).
Qed.

Lemma Plane_update_total g :
  plane g <> None -> exists g', Plane_update g = Some g'.
Proof.
  unfold Plane_update. destruct (plane g) as [p|]; [|congruence].
  intros _. cbn [mbind option_bind].
  destruct (Plane_update_this p g) as [p' g1]. eauto.
Qed.

Lemma checkCollision_total g :
  plane g <> None ->
  exists hit g', checkCollision g = Some (hit, g') /\ plane g' = plane g.
Proof.
  intros Hp. unfold checkCollision. destruct (obstacles g); [eauto|].
  destruct (plane g) as [p|] eqn:Ep; [|congruence]. cbn [mbind option_bind].
  destruct (checkCollision_loop _ _ _) as [[h obs'] s'].
  eexists _, _. split; [reflexivity|]. destruct h.
  - destruct (gameOver_keeps (set_score s' (set_obstacles obs' g))) as (-> & _).
    exact Ep.
  - exact Ep.
Qed.

Lemma update_total r g :
  plane g <> None ->
  exists g', update r g = Some g' /\ plane g' <> None.
Proof.
  intros Hp. unfold update. destruct (isGameOver g); [eauto|].
  destruct (Plane_update_total g Hp) as [g1 E1]. rewrite E1.
  cbn [mbind option_bind].
  destruct (Plane_update_keeps g g1 E1) as (_ & _ & Hp1).
  set (g4 := set_obstacles _ _).
  assert (Hp4 : plane g4 = plane g1).
  { subst g4. cbn. now destruct (_ =? _). }
  destruct (checkCollision_total g4) as (hit & g5 & E5 & Hp5); [congruence|].
  rewrite E5. cbn. exists g5. split; [reflexivity|congruence].
Qed.

Lemma handleInput_total r g :
  plane g <> None ->
  exists g', handleInput r g = Some g' /\ plane g' <> None.
Proof.
  intros Hp. unfold handleInput. destruct (isGameOver g).
  - rewrite startGame_eq. eexists. split; [reflexivity|discriminate].
  - destruct (plane g); [|congruence]. eexists. split; [reflexivity|discriminate].
Qed.

(** From a reachable state the next frame and the next input never fail:
    the plane they dereference is there. *)
Lemma reachable_plane g : reachable g -> plane g <> None.
Proof.
  induction 1 as [r g g' H | r g g' _ IH H | r g g' _ IH H].
  - rewrite startGame_eq in H. injection H as <-. discriminate.
  - destruct (update_total r g IH) as (g1 & E & Hp).
    unfold loop in H. congruence.
  - destruct (handleInput_total r g IH) as (g1 & E & Hp). congruence.
Qed.

Lemma reachable_total r g :
  reachable g ->
  (exists g', loop r g = Some g') /\ (exists g', handleInput r g = Some g').
Proof.
  intros H. pose proof (reachable_plane g H) as Hp. split.
  - destruct (update_total r g Hp) as (g1 & E & _). eauto.
  - destruct (handleInput_total r g Hp) as (g1 & E & _). eauto.
Qed.

Lemma iter_update_obstacles_kept r n :
  (n <= 150)%nat ->
  exists o, Nat.iter n update_obstacles [Obstacle.new r] = [o] /\
            aged (Z.of_nat n) o.
Proof.
  induction n as [|n IH]; intros Hn.
  - exists (Obstacle.new r). split; [reflexivity|apply aged_new].
  - destruct IH as (o & E & Ho); [lia|].
    rewrite Nat.iter_succ, E, (update_obstacles_one _ o Ho).
    destruct (Z.ltb_spec 150 (Z.of_nat n + 1)); [lia|].
    exists (Obstacle.update o). split; [reflexivity|].
    replace (Z.of_nat (S n)) with (Z.of_nat n + 1) by lia.
    now apply aged_update.
Qed.

Lemma iter_update_obstacles_gone r n :
  (151 <= n)%nat -> Nat.iter n update_obstacles [Obstacle.new r] = [].
Proof.
  induction n as [|n IH]; intros Hn; [lia|].
  rewrite Nat.iter_succ. destruct (Nat.eq_dec n 150%nat) as [->|Hne].
  - destruct (iter_update_obstacles_kept r 150%nat) as (o & E & Ho); [lia|].
    rewrite E, (update_obstacles_one _ o Ho). reflexivity.
  - rewrite IH by lia. reflexivity.
Qed.

(** C10: in every state reached from a restart by frames and inputs there
    are at most 2 obstacles, each one a constructed obstacle after between 1
    and 150 updates and not yet off screen.  An obstacle on its own is
    still there after 150 updates and gone at the 151st, the first at which
    [x + width < 0]. *)
Theorem at_most_two_obstacles (g : Game) :
  reachable g ->
  (length (obstacles g) <= 2)%nat /\
  Forall (fun o =>
            exists a, 1 <= a <= 150 /\ aged a o /\
                      (0 <= Obstacle.x o + Obstacle.width o)%Q)
    (obstacles g) /\
  (forall (r : Q) (n : nat),
     length (Nat.iter n update_obstacles [Obstacle.new r]) =
       if (n <=? 150)%nat then 1%nat else 0%nat).
Proof.
  intros H. apply reachable_inv in H.
  assert (Hold : forall a o, 1 <= a <= 150 -> aged a o ->
            exists a, 1 <= a <= 150 /\ aged a o /\
                      (0 <= Obstacle.x o + Obstacle.width o)%Q).
  { intros a o Ha Ho. exists a. split; [exact Ha|]. split; [exact Ho|].
    apply (aged_onscreen a o Ho). lia. }
  split; [|split].
  - destruct H as [[_ ->] | (a & _ & _ & _ & [(o & -> & _) | (_ & o2 & o1 & -> & _)])];
      cbn; lia.
  - destruct H as [[_ ->] | (a & Ha & _ & _ & [(o & -> & Ho) | (Ha60 & o2 & o1 & -> & Ho2 & Ho1)])].
    + constructor.
    + constructor; [|constructor]. apply (Hold a); [lia|exact Ho].
    + constructor; [|constructor; [|constructor]].
      * apply (Hold (a + 90)); [lia|exact Ho2].
      * apply (Hold a); [lia|exact Ho1].
  - intros r n. destruct (Nat.leb_spec n 150%nat) as [Hn|Hn].
    + destruct (iter_update_obstacles_kept r n Hn) as (o & -> & _). reflexivity.
    + rewrite iter_update_obstacles_gone by lia. reflexivity.
Qed.

Lemma first_frame_reachable : reachable first_frame.
Proof. exact (reach_restart 0 newcomer first_frame (startGame_eq _ _)). Qed.

Lemma at_most_two_obstacles_witness :
  reachable first_frame /\ (length (obstacles first_frame) <= 2)%nat.
Proof.
  split; [exact first_frame_reachable|].
  apply (at_most_two_obstacles first_frame). exact first_frame_reachable.
Defined.

(** ** One frame writes at most once

    A frame can call [gameOver] twice, from [Plane.update] on the ground
    and from [checkCollision] on a pipe; the second call finds the game over
    and writes nothing. *)

Lemma gameOver_log g :
  setItemLog (gameOver g) = setItemLog g \/
  (isGameOver g = false /\
   setItemLog (gameOver g) =
     [(getPlayerScoreKey (playerName g), score g); (bestScoreKey, score g)]
     ++ setItemLog g).
Proof.
  unfold gameOver. destruct (isGameOver g) eqn:E; [now left|].
  destruct g; cbn. destruct (_ >? _); cbn; [right|left]; auto.
Qed.

Lemma update_writes_once r g g' :
  update r g = Some g' ->
  setItemLog g' = setItemLog g \/
  exists s,
    setItemLog g' =
      [(getPlayerScoreKey (playerName g), s); (bestScoreKey, s)]
      ++ setItemLog g.
Proof.
  unfold update. destruct (isGameOver g) eqn:Eo; [intros [= <-]; now left|].
  unfold Plane_update. destruct (plane g) as [this|]; [|discriminate].
  cbn [mbind option_bind].
  pose proof (Plane_update_this_globals this g) as Hg.
  destruct (Plane_update_this this g) as [this' g1]. cbn [snd] in Hg.
  cbn [mbind option_bind].
  set (g4 := set_obstacles _ _).
  assert (H4 : setItemLog g4 = setItemLog g1 /\
               isGameOver g4 = isGameOver g1 /\
               playerName g4 = playerName g1).
  { subst g4. cbn. now destruct (_ =? _). }
  destruct H4 as (L4 & O4 & N4).
  unfold checkCollision. destruct (obstacles g4).
  - cbn. intros [= <-]. rewrite L4.
    destruct Hg as [-> | ->]; [now left|].
    destruct (gameOver_log g) as [-> | [_ ->]]; [now left|right; eauto].
  - destruct (plane g4); [|discriminate]. cbn [mbind option_bind].
    destruct (checkCollision_loop _ _ _) as [[h obs'] s']. cbn.
    intros [= <-]. set (g5 := set_score s' (set_obstacles obs' g4)).
    assert (H5 : setItemLog g5 = setItemLog g1 /\
                 isGameOver g5 = isGameOver g1 /\
                 playerName g5 = playerName g1).
    { subst g5. cbn. auto. }
    destruct H5 as (L5 & O5 & N5).
    destruct Hg as [-> | ->].
    + destruct h; [|rewrite L5; now left].
      destruct (gameOver_log g5) as [-> | [_ ->]];
        [rewrite L5; now left|].
      right. exists (score g5). now rewrite L5, N5.
    + assert (E5 : (if h then gameOver g5 else g5) = g5
                   \/ setItemLog (if h then gameOver g5 else g5) = setItemLog g5).
      { destruct h; [|now left]. left. apply gameOver_when_over.
        rewrite O5. apply gameOver_is_over. }
      assert (L : setItemLog (if h then gameOver g5 else g5) = setItemLog g5)
        by (destruct E5 as [-> | ->]; reflexivity).
      rewrite L, L5.
      destruct (gameOver_log g) as [-> | [_ ->]]; [now left|right; eauto].
Qed.

(** ** Worked examples *)

(** score 5 against a stored best of 3: the best becomes 5 and is written
    under both keys. *)
Example gameOver_5_over_3 :
  let g := set_score 5 (setup (boot (Some "Ann"%string)
                                 (<[bestScoreKey := 3]> ∅))) in
  bestScore (gameOver g) = 5 /\
  storedBest (gameOver g) = 5 /\
  storedPlayerBest (gameOver g) = 5 /\
  setItemLog (gameOver g) =
    [("flappyPlaneBestScore_Ann"%string, 5); (bestScoreKey, 5)].
Proof. vm_compute. auto. Qed.

(** The plane in the gap, under the top pipe, and in the bottom pipe. *)
Example pipe_hit_samples :
  let o := Obstacle.mk 60 50 false 215 355 215 in
  pipe_hit (Plane.mk 50 300 40 30 0 0) o = false /\
  pipe_hit (Plane.mk 50 214 40 30 0 0) o = true /\
  pipe_hit (Plane.mk 50 326 40 30 0 0) o = true /\
  pipe_hit (Plane.mk 50 325 40 30 0 0) o = false /\
  pipe_hit (Plane.mk 50 0 40 30 0 0) (Obstacle.mk 100 50 false 215 355 215)
    = false.
Proof. vm_compute. auto. Qed.

(** A plane left alone falls to the ground on the 40th frame of the run. *)
Example falls_in_40_frames :
  (g ← frames 38 0 first_frame; Some (isGameOver g)) = Some false /\
  (g ← frames 39 0 first_frame;
   Some (isGameOver g, Plane.y <$> plane g, frameCount g))
  = Some (true, Some 540%Q, 40).
Proof. vm_compute. auto. Qed.

(** ** A whole run *)

Lemma play_reachable r keys g g' :
  reachable g -> play r keys g = Some g' -> reachable g'.
Proof.
  revert g. induction keys as [|key keys IH]; intros g Hg; cbn [play].
  - now intros [= <-].
  - unfold play_frame at 1. destruct key.
    + destruct (handleInput r g) as [g1|] eqn:E1; [|discriminate].
      cbn [mbind option_bind].
      destruct (loop r g1) as [g2|] eqn:E2; [|discriminate].
      cbn [mbind option_bind]. apply IH.
      eapply reach_frame; [|exact E2]. eapply reach_input; eassumption.
    + cbn [mbind option_bind].
      destruct (loop r g) as [g2|] eqn:E2; [|discriminate].
      cbn [mbind option_bind]. apply IH.
      eapply reach_frame; eassumption.
Qed.

(** Frame 104 of that run: the second obstacle has spawned and the first
    is still on screen, so the bound of 2 is attained. *)
Example two_obstacles_reached :
  exists g, play 0 (take 103 keys_one_pipe) first_frame = Some g /\
            reachable g /\
            length (obstacles g) = 2%nat /\ frameCount g = 104.
Proof.
  assert (H : (fun g => (length (obstacles g), frameCount g))
                <$> play 0 (take 103 keys_one_pipe) first_frame
              = Some (2%nat, 104))
    by (vm_compute; reflexivity).
  destruct (play 0 (take 103 keys_one_pipe) first_frame) as [g|] eqn:E;
    [|discriminate H].
  exists g. split; [reflexivity|].
  split; [exact (play_reachable _ _ _ _ first_frame_reachable E)|].
  cbn in H. injection H as H1 H2. auto.
Qed.

(** The run passes the first pipe at frame 134 and ends at frame 194 on
    the second. *)
Lemma play_one_pipe_summary :
  run_summary <$> play 0 (take 133 keys_one_pipe) first_frame
    = Some (false, 1, 10, 10, 0, []) /\
  run_summary <$> play 0 keys_one_pipe first_frame
    = Some (true, 1, 10, 10, 0, []).
Proof. vm_compute. auto. Qed.

(** C1, on the code: a player with no score of their own, on a browser
    whose overall best is 10, plays a run that ends in game-over with
    score 1.  The overall best is max(10, 1) = 10 as claimed, but the
    player's own stored best is still 0 and not max(0, 1) = 1: the run
    wrote nothing. *)
Theorem player_best_not_max :
  storedBest newcomer = 10 /\
  storedPlayerBest newcomer = 0 /\
  exists g,
    play 0 keys_one_pipe first_frame = Some g /\ reachable g /\
    isGameOver g = true /\
    score g = 1 /\
    storedBest g = Z.max (storedBest newcomer) (score g) /\
    storedPlayerBest g = 0 /\
    storedPlayerBest g <> Z.max (storedPlayerBest newcomer) (score g) /\
    setItemLog g = [].
Proof.
  split; [reflexivity|]. split; [reflexivity|].
  pose proof play_one_pipe_summary as [_ H].
  destruct (play 0 keys_one_pipe first_frame) as [g|] eqn:E; [|discriminate H].
  exists g. split; [reflexivity|].
  split; [exact (play_reachable _ _ _ _ first_frame_reachable E)|].
  cbn [fmap option_fmap option_map] in H. unfold run_summary in H.
  injection H as H1 H2 H3 H4 H5 H6.
  rewrite H1, H2, H4, H5, H6.
  change (storedBest newcomer) with 10.
  change (storedPlayerBest newcomer) with 0.
  repeat split; discriminate.
Qed.

(** * Further properties *)

(** ** Storage keys *)

(** X1: two players never share a storage key, and no player's key is the
    overall key or the key the player's name is stored under. *)
Theorem player_keys_distinct (a b : string) :
  (getPlayerScoreKey a = getPlayerScoreKey b <-> a = b) /\
  getPlayerScoreKey a <> bestScoreKey /\
  getPlayerScoreKey a <> "playerName"%string.
Proof.
  split; [split|split].
  - unfold getPlayerScoreKey. cbn. intros H. now injection H.
  - now intros ->.
  - unfold getPlayerScoreKey, bestScoreKey. cbn. discriminate.
  - unfold getPlayerScoreKey. cbn. discriminate.
Qed.

(** ** Stored scores over frames and sessions *)

Lemma newly_passed_nonneg l l' : 0 <= newly_passed l l'.
Proof.
  revert l'. induction l as [|o l IH]; intros [|o' l']; cbn; try lia.
  specialize (IH l'). destruct (_ && _); lia.
Qed.

Lemma checkCollision_loop_score_le p obs s :
  s <= (checkCollision_loop p obs s).2.
Proof.
  pose proof (checkCollision_loop_scores p obs s) as H.
  destruct (checkCollision_loop p obs s) as [[h obs'] s']. cbn.
  destruct H as [-> _]. pose proof (newly_passed_nonneg obs obs'). lia.
Qed.

Lemma gameOver_effect g :
  isGameOver g = false ->
  playerName (gameOver g) = playerName g /\
  bestPlayerScore (gameOver g) = bestPlayerScore g /\
  isGameOver (gameOver g) = true /\
  restartButtonShown (gameOver g) = true /\
  (kept g (gameOver g) \/ saved (score g) g (gameOver g)).
Proof.
  intros H. unfold gameOver, kept, saved. rewrite H. destruct g; cbn.
  destruct (Z.gtb_spec score0 bestScore0); cbn.
  - repeat (split; [reflexivity|]). right. repeat split; auto.
  - repeat (split; [reflexivity|]). left. repeat split; auto.
Qed.

Lemma Plane_update_this_effect this g :
  let g1 := (Plane_update_this this g).2 in
  obstacles g1 = obstacles g /\ frameCount g1 = frameCount g /\
  score g1 = score g /\
  (g1 = g \/ (isGameOver g = false /\ g1 = gameOver g)).
Proof.
  unfold Plane_update_this. cbn.
  destruct (Qgtb _ _); cbn.
  - destruct (isGameOver g) eqn:E; cbn.
    + destruct (Qltb _ _); cbn; auto.
    + destruct (gameOver_keeps g) as (_ & Ho & Hs & Hf & _).
      destruct (Qltb _ _); cbn; auto 10.
  - destruct (Qltb _ _); cbn; auto.
Qed.

(** A running frame, taken apart: the plane's update, then the spawn, the
    counter and the obstacles, then [checkCollision]. *)
Lemma update_running r g g' :
  isGameOver g = false ->
  update r g = Some g' ->
  exists this g1 this' hit,
    plane g = Some this /\
    Plane_update_this this g = (this', g1) /\
    let g4 :=
      set_obstacles (next_obstacles r g)
        (set_frameCount (frameCount g + 1) (set_plane (Some this') g1)) in
    checkCollision g4 = Some (hit, g').
Proof.
  intros Ho. unfold update. rewrite Ho.
  unfold Plane_update. destruct (plane g) as [this|] eqn:Ep; [|discriminate].
  cbn [mbind option_bind].
  pose proof (Plane_update_this_effect this g) as Hg.
  destruct (Plane_update_this this g) as [this' g1] eqn:E1. cbn [snd] in Hg.
  destruct Hg as (Hobs & Hfc & _ & _).
  cbn [mbind option_bind].
  set (g4 := set_obstacles _ _).
  destruct (checkCollision g4) as [[hit g5]|] eqn:E5; [|discriminate].
  cbn. intros [= <-]. exists this, g1, this', hit.
  split; [reflexivity|]. split; [exact E1|]. cbn zeta.
  rewrite <- E5. f_equal. subst g4. unfold next_obstacles.
  rewrite <- Hobs, <- Hfc. clear.
  destruct g1; cbn. destruct (_ =? _); reflexivity.
Qed.

Lemma checkCollision_spec g p :
  plane g = Some p ->
  checkCollision g =
    Some (let '(h, obs', s') :=
            checkCollision_loop p (obstacles g) (score g) in
          let g5 := set_score s' (set_obstacles obs' g) in
          (h, if h then gameOver g5 else g5)).
Proof.
  intros Hp. unfold checkCollision.
  destruct (obstacles g) as [|o rest] eqn:E.
  - cbn. destruct g; cbn in *. subst. reflexivity.
  - rewrite Hp. cbn [mbind option_bind].
    destruct (checkCollision_loop p (o :: rest) (score g)) as [[h obs'] s'].
    reflexivity.
Qed.

Lemma kept_refl g : kept g g.
Proof. repeat split. Qed.

(** The stored scores over one frame. *)
Lemma update_storage r g g' :
  update r g = Some g' ->
  playerName g' = playerName g /\
  bestPlayerScore g' = bestPlayerScore g /\
  (kept g g' \/
   (isGameOver g = false /\ isGameOver g' = true /\
    exists s, score g <= s <= score g' /\ saved s g g')).
Proof.
  destruct (isGameOver g) eqn:Ho.
  { unfold update. rewrite Ho. intros [= <-].
    split; [reflexivity|]. split; [reflexivity|]. left. apply kept_refl. }
  intros H.
  destruct (update_running r g g' Ho H) as (this & g1 & this' & hit & Hp & E1 & E5).
  cbn zeta in E5.
  pose proof (Plane_update_this_effect this g) as Hg. rewrite E1 in Hg.
  cbn [snd] in Hg. destruct Hg as (_ & _ & Hs1 & Hg1).
  set (g4 := set_obstacles _ _) in E5.
  rewrite (checkCollision_spec g4 this' eq_refl) in E5.
  pose proof (checkCollision_loop_score_le this' (obstacles g4) (score g4)) as Hle.
  destruct (checkCollision_loop this' (obstacles g4) (score g4)) as [[h obs'] s'].
  cbn [snd] in Hle. injection E5 as _ <-.
  set (g5 := set_score s' (set_obstacles obs' g4)).
  assert (N5 : playerName g5 = playerName g1) by reflexivity.
  assert (B5 : bestPlayerScore g5 = bestPlayerScore g1) by reflexivity.
  assert (BS5 : bestScore g5 = bestScore g1) by reflexivity.
  assert (O5 : isGameOver g5 = isGameOver g1) by reflexivity.
  assert (L5 : localStorage g5 = localStorage g1) by reflexivity.
  assert (W5 : setItemLog g5 = setItemLog g1) by reflexivity.
  assert (S5 : score g5 = s') by reflexivity.
  assert (S4 : score g4 = score g) by (subst g4; cbn; exact Hs1).
  rewrite S4 in Hle.
  destruct Hg1 as [-> | [_ ->]].
  - (* the plane did not reach the ground *)
    destruct h.
    + assert (O5' : isGameOver g5 = false) by congruence.
      destruct (gameOver_effect g5 O5') as (Hn & Hb & Hov & _ & Hk).
      rewrite Hn, Hb, N5, B5. split; [reflexivity|]. split; [reflexivity|].
      destruct Hk as [(K1 & K2 & K3) | (K1 & K2 & K3 & K4)].
      * left. unfold kept. rewrite K1, K2, K3, BS5, L5, W5. auto.
      * right. split; [reflexivity|]. split; [exact Hov|].
        exists s'. destruct (gameOver_keeps g5) as (_ & _ & Hsc & _).
        rewrite Hsc, S5. split; [lia|]. unfold saved.
        rewrite K2, K3, K4, S5, N5, L5, W5. rewrite S5, BS5 in K1. auto.
    + rewrite N5, B5. split; [reflexivity|]. split; [reflexivity|].
      left. unfold kept. auto.
  - (* [Plane.update] called [gameOver] *)
    destruct (gameOver_effect g Ho) as (N & B & Hov & _ & Hk).
    assert (E : (if h then gameOver g5 else g5) = g5).
    { destruct h; [|reflexivity]. apply gameOver_when_over. congruence. }
    rewrite E. rewrite N5, B5, N, B.
    split; [reflexivity|]. split; [reflexivity|].
    destruct Hk as [(K1 & K2 & K3) | (K1 & K2 & K3 & K4)].
    + left. unfold kept. rewrite BS5, L5, W5. auto.
    + right. split; [reflexivity|]. split; [congruence|].
      exists (score g). rewrite S5. split; [lia|]. unfold saved.
      rewrite BS5, L5, W5. auto.
Qed.

(** X2: a frame writes to [localStorage] at most once.  Either nothing is
    written and [bestScore] stays, or the frame took the game from Running
    to GameOver and stored one value, greater than the old [bestScore], as
    the new [bestScore] and under both keys (the overall key first); that
    value is the score when [gameOver] ran, between the score before the
    frame and the score after it. *)
Theorem frame_saves_at_most_once (r : Q) (g g' : Game) :
  update r g = Some g' ->
  kept g g' \/
  (isGameOver g = false /\ isGameOver g' = true /\
   exists s, score g <= s <= score g' /\ saved s g g').
Proof. intros H. apply (update_storage r g g' H). Qed.

Lemma frame_saves_at_most_once_witness :
  let g := set_plane (Some (Plane.mk 50 539 40 30 5 0))
             (set_score 12 (setup newcomer)) in
  exists g',
    update 0 g = Some g' /\
    (kept g g' \/
     (isGameOver g = false /\ isGameOver g' = true /\
      exists s, score g <= s <= score g' /\ saved s g g')).
Proof.
  intros g.
  destruct (update 0 g) as [g'|] eqn:E.
  - exists g'. split; [reflexivity|].
    exact (frame_saves_at_most_once 0 g g' E).
  - vm_compute in E. discriminate.
Defined.

Lemma startGame_storage r g g' :
  startGame r g = Some g' ->
  playerName g' = playerName g /\ bestPlayerScore g' = bestPlayerScore g /\
  kept g g'.
Proof.
  rewrite startGame_eq. intros [= <-]. repeat split.
Qed.

Lemma handleInput_storage r g g' :
  handleInput r g = Some g' ->
  playerName g' = playerName g /\ bestPlayerScore g' = bestPlayerScore g /\
  kept g g'.
Proof.
  unfold handleInput. destruct (isGameOver g).
  - apply startGame_storage.
  - destruct (plane g); [|discriminate]. intros [= <-]. repeat split.
Qed.

Lemma dispatch_storage e g g' :
  dispatch e g = Some g' ->
  playerName g' = playerName g /\ bestPlayerScore g' = bestPlayerScore g /\
  (kept g g' \/ exists s, saved s g g').
Proof.
  destruct e as [r|code r|r|r|r]; cbn [dispatch]; intros H.
  - destruct (update_storage r g g' H) as (N & B & [K | (_ & _ & s & _ & S)]);
      eauto 6.
  - unfold onKeydown in H. destruct (String.eqb code "Space").
    + destruct (handleInput_storage r g g' H) as (N & B & K). auto.
    + injection H as <-. split; [reflexivity|]. split; [reflexivity|].
      left. apply kept_refl.
  - destruct (handleInput_storage r g g' H) as (N & B & K). auto.
  - destruct (handleInput_storage r g g' H) as (N & B & K). auto.
  - destruct (startGame_storage r g g' H) as (N & B & K). auto.
Qed.

Lemma saved_lookups s g g' :
  saved s g g' ->
  localStorage g' !! bestScoreKey = Some s /\
  localStorage g' !! getPlayerScoreKey (playerName g) = Some s /\
  forall k, k <> bestScoreKey -> k <> getPlayerScoreKey (playerName g) ->
            localStorage g' !! k = localStorage g !! k.
Proof.
  intros (_ & _ & -> & _). split; [|split].
  - rewrite lookup_insert_ne by (unfold getPlayerScoreKey; discriminate).
    apply lookup_insert_eq.
  - apply lookup_insert_eq.
  - intros k H1 H2. rewrite !lookup_insert_ne by congruence. reflexivity.
Qed.

(** What every event keeps: the best score does not go down, the stored
    overall best follows it, the player's stored best stays below it, and
    no other key is touched. *)
Lemma dispatch_scores e g g' :
  dispatch e g = Some g' ->
  playerName g' = playerName g /\
  bestPlayerScore g' = bestPlayerScore g /\
  bestScore g <= bestScore g' /\
  (storedBest g = bestScore g -> storedBest g' = bestScore g') /\
  (storedPlayerBest g <= bestScore g ->
   storedPlayerBest g <= storedPlayerBest g' <= bestScore g') /\
  (forall k, k <> bestScoreKey -> k <> getPlayerScoreKey (playerName g) ->
             localStorage g' !! k = localStorage g !! k).
Proof.
  intros H. destruct (dispatch_storage e g g' H) as (N & B & HK).
  split; [exact N|]. split; [exact B|].
  unfold storedBest, storedPlayerBest, getItemOr0. rewrite N.
  destruct HK as [(K1 & K2 & K3) | (s & S)].
  - rewrite K1, K2. repeat split; auto; lia.
  - destruct (saved_lookups s g g' S) as (L1 & L2 & L3).
    destruct S as (S1 & S2 & _). rewrite L1, L2, S2. cbn.
    repeat split; auto; lia.
Qed.

Lemma session_scores es g g' :
  session es g = Some g' ->
  playerName g' = playerName g /\
  bestPlayerScore g' = bestPlayerScore g /\
  bestScore g <= bestScore g' /\
  (storedBest g = bestScore g -> storedBest g' = bestScore g') /\
  (storedPlayerBest g <= bestScore g ->
   storedPlayerBest g <= storedPlayerBest g' <= bestScore g') /\
  (forall k, k <> bestScoreKey -> k <> getPlayerScoreKey (playerName g) ->
             localStorage g' !! k = localStorage g !! k).
Proof.
  revert g. induction es as [|e es IH]; intros g; cbn [session].
  - intros [= <-]. repeat split; auto; lia.
  - destruct (dispatch e g) as [g1|] eqn:E; [|discriminate].
    cbn [mbind option_bind]. intros H.
    destruct (dispatch_scores e g g1 E) as (N1 & B1 & M1 & S1 & P1 & K1).
    destruct (IH g1 H) as (N2 & B2 & M2 & S2 & P2 & K2).
    rewrite N1 in K2.
    split; [congruence|]. split; [congruence|]. split; [lia|].
    split; [auto|]. split.
    + intros HP. specialize (P1 HP). specialize (P2 ltac:(lia)). lia.
    + intros k H1 H2. rewrite K2, K1; auto.
Qed.

(** X3: over any sequence of frames and inputs [bestScore] never goes
    down, and once the stored overall best agrees with it (as it does when
    the page has loaded it) it agrees with it ever after. *)
Theorem session_best_never_decreases (es : list event) (g g' : Game) :
  session es g = Some g' ->
  storedBest g = bestScore g ->
  bestScore g <= bestScore g' /\ storedBest g' = bestScore g'.
Proof.
  intros H Hs. destruct (session_scores es g g' H) as (_ & _ & M & S & _).
  auto.
Qed.

Lemma session_best_never_decreases_witness :
  exists g',
    session sample_session newcomer = Some g' /\
    bestScore newcomer <= bestScore g' /\ storedBest g' = bestScore g'.
Proof.
  destruct (session sample_session newcomer) as [g'|] eqn:E.
  - exists g'. split; [reflexivity|].
    apply (session_best_never_decreases sample_session newcomer g' E).
    reflexivity.
  - vm_compute in E. discriminate.
Defined.

(** X4: the player's stored best: if it does not exceed [bestScore] to
    begin with, then over any sequence of frames and inputs it never goes
    down and never exceeds [bestScore]; the player's name and the
    [bestPlayerScore] read at load time never change. *)
Theorem session_player_best (es : list event) (g g' : Game) :
  session es g = Some g' ->
  storedPlayerBest g <= bestScore g ->
  storedPlayerBest g <= storedPlayerBest g' <= bestScore g' /\
  playerName g' = playerName g /\
  bestPlayerScore g' = bestPlayerScore g.
Proof.
  intros H Hs. destruct (session_scores es g g' H) as (N & B & _ & _ & P & _).
  auto.
Qed.

Lemma session_player_best_witness :
  exists g',
    session sample_session newcomer = Some g' /\
    storedPlayerBest newcomer <= storedPlayerBest g' <= bestScore g'.
Proof.
  destruct (session sample_session newcomer) as [g'|] eqn:E.
  - exists g'. split; [reflexivity|].
    apply (session_player_best sample_session newcomer g' E).
    vm_compute. discriminate.
  - vm_compute in E. discriminate.
Defined.

(** X5: a session writes under the overall key and the player's own key
    only: every other item of [localStorage], another player's best for
    one, is what it was. *)
Theorem session_other_keys_untouched (es : list event) (g g' : Game)
    (k : string) :
  session es g = Some g' ->
  k <> bestScoreKey ->
  k <> getPlayerScoreKey (playerName g) ->
  localStorage g' !! k = localStorage g !! k.
Proof.
  intros H H1 H2.
  destruct (session_scores es g g' H) as (_ & _ & _ & _ & _ & K). auto.
Qed.

Lemma session_other_keys_untouched_witness :
  exists g',
    session sample_session newcomer = Some g' /\
    localStorage g' !! getPlayerScoreKey "Ann" =
      localStorage newcomer !! getPlayerScoreKey "Ann".
Proof.
  destruct (session sample_session newcomer) as [g'|] eqn:E.
  - exists g'. split; [reflexivity|].
    apply (session_other_keys_untouched sample_session newcomer g' _ E);
      vm_compute; discriminate.
  - vm_compute in E. discriminate.
Defined.

(** ** Invariants of a run *)

Lemma tilt_range v :
  (-20 <= Qmin (Qmax (-20) v) 45)%Q /\ (Qmin (Qmax (-20) v) 45 <= 45)%Q.
Proof.
  split.
  - apply Q.min_glb; [apply Q.le_max_l|]. discriminate.
  - apply Q.le_min_r.
Qed.

Lemma Plane_update_this_plane_ok this g :
  plane_ok this -> plane_ok (Plane_update_this this g).1.
Proof.
  intros (Hx & Hw & Hh & Hy0 & Hy1 & Hv & _).
  pose proof (tilt_range ((Plane.velocity this + GRAVITY) * 4)) as [T0 T1].
  unfold Plane_update_this, plane_ok. cbn. rewrite Hh.
  Qcmp; cbn in *; rewrite ?Hh in *; Qconsts;
    repeat split; auto; try lra.
Qed.

Lemma jump_plane_ok p : plane_ok p -> plane_ok (Plane.jump p).
Proof.
  intros (Hx & Hw & Hh & Hy0 & Hy1 & Hv & Ht0 & Ht1).
  unfold plane_ok. cbn. Qconsts. repeat split; auto. lra.
Qed.

Lemma plane_after_first_frame_ok : plane_ok plane_after_first_frame.
Proof.
  unfold plane_ok. cbn.
  repeat split; try reflexivity; vm_compute; discriminate.
Qed.

Lemma gameOver_button g :
  restartButtonShown g = isGameOver g ->
  restartButtonShown (gameOver g) = isGameOver (gameOver g).
Proof.
  intros H. destruct (isGameOver g) eqn:E.
  - rewrite (gameOver_when_over g E). congruence.
  - destruct (gameOver_effect g E) as (_ & _ & -> & -> & _). reflexivity.
Qed.

(** Where an obstacle of a given age is, for a plane at [x = 50]. *)
Lemma aged_passed_iff a o :
  aged a o ->
  Qgtb 50 (Obstacle.x o + Obstacle.width o) = (134 <=? a).
Proof.
  intros [Hx Hw]. rewrite Hw. Qconsts.
  destruct (Z.leb_spec 134 a) as [H|H].
  - apply Qgtb_gt. rewrite Zle_Qle in H.
    change (inject_Z 134) with 134%Q in H. lra.
  - apply Qgtb_le. assert (H' : a <= 133) by lia. rewrite Zle_Qle in H'.
    change (inject_Z 133) with 133%Q in H'. lra.
Qed.

Lemma aged_overlap_young a o :
  aged a o ->
  Qltb 50 (Obstacle.x o + Obstacle.width o) = true -> a <= 133.
Proof.
  intros [Hx Hw]. rewrite Hw. Qconsts. intros H. apply Qltb_lt in H.
  destruct (Z.leb_spec 134 a) as [H1|H1]; [|lia].
  rewrite Zle_Qle in H1. change (inject_Z 134) with 134%Q in H1. lra.
Qed.

Lemma pipe_at_update a b o :
  pipe_at a b o -> pipe_at (a + 1) b (Obstacle.update o).
Proof. intros [Ha Hp]. split; [now apply aged_update|exact Hp]. Qed.

Lemma pipe_at_new r : pipe_at 0 0 (Obstacle.new r).
Proof. split; [apply aged_new|reflexivity]. Qed.

Lemma pipe_at_young a o :
  a <= 133 -> pipe_at a (a - 1) o -> pipe_at a a o.
Proof.
  intros H [Ha Hp]. split; [exact Ha|]. rewrite Hp.
  destruct (Z.leb_spec 134 (a - 1)), (Z.leb_spec 134 a); lia || reflexivity.
Qed.

Lemma pipe_hit_young p a o :
  Plane.x p = 50%Q -> aged a o -> pipe_hit p o = true -> a <= 133.
Proof.
  intros Hx Ha. unfold pipe_hit. rewrite Hx.
  destruct (Qltb 50 (Obstacle.x o + Obstacle.width o)) eqn:E.
  - intros _. now apply (aged_overlap_young a o).
  - rewrite andb_false_r. discriminate.
Qed.

Lemma score_obstacle_at p a o s :
  Plane.x p = 50%Q -> pipe_at a (a - 1) o ->
  pipe_at a a (score_obstacle p o s).1 /\
  (score_obstacle p o s).2 = s + (if a =? 134 then 1 else 0).
Proof.
  intros Hx [Ha Hp]. unfold score_obstacle.
  rewrite Hx, (aged_passed_iff a o Ha), Hp.
  destruct (Z.leb_spec 134 a) as [H1|H1];
    destruct (Z.leb_spec 134 (a - 1)) as [H2|H2];
    destruct (Z.eqb_spec a 134) as [H3|H3]; try lia; cbn.
  - split; [split; [exact Ha|]|lia]. rewrite Hp.
    destruct (Z.leb_spec 134 (a - 1)), (Z.leb_spec 134 a); lia || reflexivity.
  - split; [split; [exact Ha|]|reflexivity]. cbn.
    destruct (Z.leb_spec 134 a); lia || reflexivity.
  - split; [split; [exact Ha|]|lia]. rewrite Hp.
    destruct (Z.leb_spec 134 (a - 1)), (Z.leb_spec 134 a); lia || reflexivity.
Qed.

(** The spawn and the backwards loop, for a list that fits the counter. *)
Lemma pipes_at_moved r m a obs :
  0 <= m -> 1 <= a <= 90 ->
  pipes_at 0 m a obs ->
  pipes_at 1 (if a =? 90 then m + 1 else m) (if a =? 90 then 1 else a + 1)
    (update_obstacles (if a =? 90 then obs ++ [Obstacle.new r] else obs)).
Proof.
  intros Hm Ha. unfold pipes_at.
  destruct (Z.eqb_spec a 90) as [->|Hne].
  - replace ((1 <=? m) && (90 <=? 60)) with false by now rewrite andb_false_r.
    intros (o1 & -> & P1). cbn [app].
    rewrite (update_obstacles_two 90 0 o1 (Obstacle.new r));
      [|apply P1|apply aged_new].
    cbn [Z.ltb Z.add Z.compare Pos.compare Pos.compare_cont Pos.add Pos.succ app].
    replace ((1 <=? m + 1) && (1 <=? 60)) with true
      by (destruct (Z.leb_spec 1 (m + 1)); [reflexivity|lia]).
    eexists _, _. split; [reflexivity|]. split.
    + replace (1 + 90) with (90 + 1) by lia.
      replace (90 + 1 - 1) with (90 - 0) by lia.
      now apply pipe_at_update.
    + replace (1 - 1) with 0 by lia. apply (pipe_at_update 0), pipe_at_new.
  - destruct ((1 <=? m) && (a <=? 60)) eqn:C.
    + apply andb_true_iff in C as [C1 C2].
      apply Z.leb_le in C1, C2.
      intros (o2 & o1 & -> & P2 & P1).
      rewrite (update_obstacles_two (a + 90) a o2 o1); [|apply P2|apply P1].
      destruct (Z.ltb_spec 150 (a + 1)); [lia|].
      destruct (Z.ltb_spec 150 (a + 90 + 1)) as [Hk|Hk]; cbn [app].
      * replace ((1 <=? m) && (a + 1 <=? 60)) with false
          by (destruct (Z.leb_spec (a + 1) 60); [lia|now rewrite andb_false_r]).
        eexists. split; [reflexivity|].
        replace (a + 1 - 1) with (a - 0) by lia. now apply pipe_at_update.
      * replace ((1 <=? m) && (a + 1 <=? 60)) with true
          by (destruct (Z.leb_spec (a + 1) 60), (Z.leb_spec 1 m);
              reflexivity || lia).
        eexists _, _. split; [reflexivity|]. split.
        -- replace (a + 1 + 90) with (a + 90 + 1) by lia.
           replace (a + 90 + 1 - 1) with (a + 90 - 0) by lia.
           now apply pipe_at_update.
        -- replace (a + 1 - 1) with (a - 0) by lia. now apply pipe_at_update.
    + intros (o1 & -> & P1).
      rewrite (update_obstacles_one a o1); [|apply P1].
      destruct (Z.ltb_spec 150 (a + 1)); [lia|].
      replace ((1 <=? m) && (a + 1 <=? 60)) with false.
      * eexists. split; [reflexivity|].
        replace (a + 1 - 1) with (a - 0) by lia. now apply pipe_at_update.
      * apply andb_false_iff in C as [C|C]; [now rewrite C|].
        apply Z.leb_gt in C.
        destruct (Z.leb_spec (a + 1) 60); [lia|now rewrite andb_false_r].
Qed.

(** [checkCollision]'s loop on such a list, for a plane at [x = 50]: the
    flags catch up with the ages, and the score goes up by one exactly
    when the older obstacle has just had its 134th update. *)
Lemma pipes_at_checked p m a obs s :
  Plane.x p = 50%Q -> 1 <= a <= 90 ->
  pipes_at 1 m a obs ->
  pipes_at 0 m a (checkCollision_loop p obs s).1.2 /\
  (checkCollision_loop p obs s).2 =
    s + (if (1 <=? m) && (a =? 44) then 1 else 0).
Proof.
  intros Hx Ha. unfold pipes_at.
  destruct ((1 <=? m) && (a <=? 60)) eqn:C.
  - apply andb_true_iff in C as [C1 C2]. rewrite C1. cbn [andb].
    apply Z.leb_le in C2.
    intros (o2 & o1 & -> & P2 & P1).
    assert (Y1 : pipe_at a (a - 0) o1)
      by (replace (a - 0) with a by lia; apply pipe_at_young; [lia|exact P1]).
    cbn [checkCollision_loop].
    destruct (pipe_hit p o2) eqn:H2.
    + pose proof (pipe_hit_young p _ o2 Hx (proj1 P2) H2) as Hy.
      cbn. split.
      * eexists _, _. split; [reflexivity|]. split; [|exact Y1].
        replace (a + 90 - 0) with (a + 90) by lia.
        apply pipe_at_young; [lia|exact P2].
      * destruct (Z.eqb_spec a 44); lia.
    + pose proof (score_obstacle_at p (a + 90) o2 s Hx P2) as [Q2 S2].
      destruct (score_obstacle p o2 s) as [o2' s2]. cbn [fst snd] in Q2, S2.
      pose proof (score_obstacle_at p a o1 s2 Hx P1) as [Q1 S1].
      replace (a + 90 =? 134) with (a =? 44) in S2
        by (destruct (Z.eqb_spec a 44), (Z.eqb_spec (a + 90) 134);
            reflexivity || lia).
      destruct (pipe_hit p o1) eqn:H1.
      * cbn. split; [|exact S2].
        eexists _, _. split; [reflexivity|]. split; [|exact Y1].
        replace (a + 90 - 0) with (a + 90) by lia. exact Q2.
      * destruct (score_obstacle p o1 s2) as [o1' s1]. cbn [fst snd] in Q1, S1.
        cbn. split.
        -- eexists _, _. split; [reflexivity|].
           replace (a + 90 - 0) with (a + 90) by lia.
           replace (a - 0) with a by lia. auto.
        -- rewrite S1, S2. destruct (Z.eqb_spec a 134); lia.
  - intros (o1 & -> & P1).
    assert (Hinc : (if (1 <=? m) && (a =? 44) then 1 else 0) = 0).
    { apply andb_false_iff in C as [C|C]; [now rewrite C|].
      apply Z.leb_gt in C.
      destruct (Z.eqb_spec a 44); [lia|now rewrite andb_false_r]. }
    rewrite Hinc. cbn [checkCollision_loop].
    destruct (pipe_hit p o1) eqn:H1.
    + cbn. split; [|lia]. eexists. split; [reflexivity|].
      replace (a - 0) with a by lia. apply pipe_at_young; [lia|exact P1].
    + pose proof (score_obstacle_at p a o1 s Hx P1) as [Q1 S1].
      destruct (score_obstacle p o1 s) as [o1' s1]. cbn [fst snd] in Q1, S1.
      cbn. split.
      * eexists. split; [reflexivity|].
        replace (a - 0) with a by lia. exact Q1.
      * rewrite S1. destruct (Z.eqb_spec a 134); lia.
Qed.

Lemma score_of_frames m a :
  0 <= m -> 1 <= a <= 90 ->
  let t := 90 * m + a in
  let m' := if a =? 90 then m + 1 else m in
  let a' := if a =? 90 then 1 else a + 1 in
  t + 1 = 90 * m' + a' /\ 0 <= m' /\ 1 <= a' <= 90 /\
  (Z.rem t 90 =? 0) = (a =? 90) /\
  Z.max 0 ((t + 1 - 44) / 90) =
    Z.max 0 ((t - 44) / 90) + (if (1 <=? m') && (a' =? 44) then 1 else 0).
Proof.
  intros Hm Ha t m' a'. subst t m' a'.
  destruct (Z.eqb_spec a 90) as [->|Hne].
  - split; [lia|]. split; [lia|]. split; [lia|]. split.
    + apply Z.eqb_eq. rewrite Z.rem_mod_nonneg by lia.
      replace (90 * m + 90) with ((m + 1) * 90) by lia. apply Z.mod_mul. lia.
    + rewrite andb_false_r.
      replace ((90 * m + 90 + 1 - 44) / 90) with m
        by (apply (Z.div_unique _ _ _ 47); lia).
      replace ((90 * m + 90 - 44) / 90) with m
        by (apply (Z.div_unique _ _ _ 46); lia).
      lia.
  - split; [lia|]. split; [lia|]. split; [lia|]. split.
    + apply Z.eqb_neq. rewrite Z.rem_mod_nonneg by lia.
      replace (90 * m + a) with (a + m * 90) by lia.
      rewrite Z.mod_add by lia. rewrite Z.mod_small by lia. lia.
    + destruct (Z.leb_spec 1 m) as [Hm1|Hm1]; cbn [andb].
      * destruct (Z.eqb_spec (a + 1) 44) as [E|E].
        -- replace ((90 * m + a + 1 - 44) / 90) with m
             by (apply (Z.div_unique _ _ _ 0); lia).
           replace ((90 * m + a - 44) / 90) with (m - 1)
             by (apply (Z.div_unique _ _ _ 89); lia).
           lia.
        -- destruct (Z_lt_le_dec (a + 1) 44).
           ++ replace ((90 * m + a + 1 - 44) / 90) with (m - 1)
                by (apply (Z.div_unique _ _ _ (a + 1 + 46)); lia).
              replace ((90 * m + a - 44) / 90) with (m - 1)
                by (apply (Z.div_unique _ _ _ (a + 46)); lia).
              lia.
           ++ replace ((90 * m + a + 1 - 44) / 90) with m
                by (apply (Z.div_unique _ _ _ (a + 1 - 44)); lia).
              replace ((90 * m + a - 44) / 90) with m
                by (apply (Z.div_unique _ _ _ (a - 44)); lia).
              lia.
      * assert (m = 0) by lia. subst m.
        destruct (Z_lt_le_dec (a + 1) 44).
        -- replace ((90 * 0 + a + 1 - 44) / 90) with (-1)
             by (apply (Z.div_unique _ _ _ (a + 1 + 46)); lia).
           replace ((90 * 0 + a - 44) / 90) with (-1)
             by (apply (Z.div_unique _ _ _ (a + 46)); lia).
           lia.
        -- destruct (Z.eq_dec (a + 1) 44).
           ++ replace ((90 * 0 + a + 1 - 44) / 90) with 0
                by (apply (Z.div_unique _ _ _ 0); lia).
              replace ((90 * 0 + a - 44) / 90) with (-1)
                by (apply (Z.div_unique _ _ _ 89); lia).
              lia.
           ++ replace ((90 * 0 + a + 1 - 44) / 90) with 0
                by (apply (Z.div_unique _ _ _ (a + 1 - 44)); lia).
              replace ((90 * 0 + a - 44) / 90) with 0
                by (apply (Z.div_unique _ _ _ (a - 44)); lia).
              lia.
Qed.

Lemma update_run_inv r g g' :
  run_inv g -> update r g = Some g' -> run_inv g'.
Proof.
  intros Hinv H. destruct (isGameOver g) eqn:Ho.
  { unfold update in H. rewrite Ho in H. now injection H as <-. }
  destruct (update_running r g g' Ho H)
    as (this & g1 & this' & hit & Hp & E1 & E5).
  cbn zeta in E5.
  destruct Hinv as ((p & Hp' & Hok) & Hb & m & a & Hm & Ha & Ht & Hpipes & Hs).
  rewrite Hp in Hp'. injection Hp' as <-.
  pose proof (Plane_update_this_plane_ok this g Hok) as Hok'.
  pose proof (Plane_update_this_effect this g) as Hg.
  rewrite E1 in Hok', Hg. cbn [fst snd] in Hok', Hg.
  destruct Hg as (_ & _ & Hs1 & Hg1).
  assert (Hb1 : restartButtonShown g1 = isGameOver g1).
  { destruct Hg1 as [-> | [_ ->]]; [congruence|].
    apply gameOver_button. congruence. }
  set (g4 := set_obstacles _ _) in E5.
  rewrite (checkCollision_spec g4 this' eq_refl) in E5.
  change (obstacles g4) with (next_obstacles r g) in E5.
  change (score g4) with (score g1) in E5.
  destruct (score_of_frames m a Hm Ha) as (Ht' & Hm' & Ha' & Hrem & Hsc).
  cbn zeta in Ht', Hsc. rewrite <- Ht in Hrem, Ht', Hsc.
  pose proof (pipes_at_moved r m a (obstacles g) Hm Ha Hpipes) as Hmoved.
  rewrite <- Hrem in Hmoved at 3.
  change (update_obstacles _) with (next_obstacles r g) in Hmoved.
  destruct Hok' as (Hx' & Hrest).
  pose proof (pipes_at_checked this' _ _ _ (score g1) Hx' Ha' Hmoved)
    as [Hchecked Hscore].
  destruct (checkCollision_loop this' (next_obstacles r g) (score g1))
    as [[h obs'] s'].
  cbn [fst snd] in Hchecked, Hscore. injection E5 as _ <-.
  set (g5 := set_score s' (set_obstacles obs' g4)).
  assert (I5 : (exists p, plane g5 = Some p /\ plane_ok p) /\
               restartButtonShown g5 = isGameOver g5 /\
               frameCount g5 = frameCount g + 1 /\
               obstacles g5 = obs' /\ score g5 = s').
  { split; [exists this'; split; [reflexivity|]; split; assumption|].
    split; [exact Hb1|]. repeat split. }
  destruct I5 as (P5 & B5 & F5 & O5 & S5).
  assert (If : (exists p, plane (if h then gameOver g5 else g5) = Some p
                          /\ plane_ok p) /\
               restartButtonShown (if h then gameOver g5 else g5)
                 = isGameOver (if h then gameOver g5 else g5) /\
               frameCount (if h then gameOver g5 else g5) = frameCount g + 1 /\
               obstacles (if h then gameOver g5 else g5) = obs' /\
               score (if h then gameOver g5 else g5) = s').
  { destruct h; [|auto].
    destruct (gameOver_keeps g5) as (-> & -> & -> & -> & _).
    split; [exact P5|]. split; [now apply gameOver_button|]. auto. }
  destruct If as (Pf & Bf & Ff & Of & Sf).
  split; [exact Pf|]. split; [exact Bf|].
  exists (if a =? 90 then m + 1 else m), (if a =? 90 then 1 else a + 1).
  rewrite Ff, Of, Sf. split; [exact Hm'|]. split; [exact Ha'|].
  split; [exact Ht'|]. split; [exact Hchecked|].
  rewrite Hscore, Hs1, Hs, Hsc. reflexivity.
Qed.

Lemma after_first_frame_run_inv r g : run_inv (after_first_frame r g).
Proof.
  split; [exists plane_after_first_frame; split;
          [reflexivity|apply plane_after_first_frame_ok]|].
  split; [reflexivity|].
  exists 0, 1. split; [lia|]. split; [lia|]. split; [reflexivity|].
  split; [|reflexivity].
  unfold pipes_at. cbn [Z.leb Z.compare andb].
  eexists. split; [reflexivity|].
  apply (pipe_at_update 0 0), pipe_at_new.
Qed.

Lemma handleInput_run_inv r g g' :
  run_inv g -> handleInput r g = Some g' -> run_inv g'.
Proof.
  intros Hinv. unfold handleInput. destruct (isGameOver g).
  - rewrite startGame_eq. intros [= <-]. apply after_first_frame_run_inv.
  - destruct Hinv as ((p & Hp & Hok) & Hrest). rewrite Hp.
    cbn [mbind option_bind]. intros [= <-].
    split; [|exact Hrest].
    exists (Plane.jump p). split; [reflexivity|now apply jump_plane_ok].
Qed.

Lemma reachable_run_inv g : reachable g -> run_inv g.
Proof.
  induction 1 as [r g g' H | r g g' _ IH H | r g g' _ IH H].
  - rewrite startGame_eq in H. injection H as <-.
    apply after_first_frame_run_inv.
  - exact (update_run_inv r g g' IH H).
  - exact (handleInput_run_inv r g g' IH H).
Qed.

(** X6: in every state reached from a restart by frames and inputs the
    plane exists, has the constructor's [x = 50], width 40 and height 30,
    lies between the ceiling and the ground line ([0 <= y <= 540]), never
    rises faster than a jump ([velocity >= -6]), and has its tilt between
    -20 and 45 degrees. *)
Theorem reachable_plane_ok (g : Game) :
  reachable g ->
  exists p, plane g = Some p /\ plane_ok p /\
    (0 <= Plane.y p)%Q /\ (Plane.y p + Plane.height p <= CANVAS_HEIGHT - 30)%Q.
Proof.
  intros H. destruct (reachable_run_inv g H) as ((p & Hp & Hok) & _).
  exists p. split; [exact Hp|]. split; [exact Hok|].
  destruct Hok as (_ & _ & Hh & Hy0 & Hy1 & _). rewrite Hh. Qconsts.
  split; lra.
Qed.

Lemma reachable_plane_ok_witness :
  exists p, plane first_frame = Some p /\ plane_ok p /\
    (0 <= Plane.y p)%Q /\ (Plane.y p + Plane.height p <= CANVAS_HEIGHT - 30)%Q.
Proof. exact (reachable_plane_ok first_frame first_frame_reachable). Defined.

(** X7: once a game has been started, the restart button is shown exactly
    when the game is over. *)
Theorem restart_button_iff_game_over (g : Game) :
  reachable g -> restartButtonShown g = isGameOver g.
Proof.
  intros H. destruct (reachable_run_inv g H) as (_ & Hb & _). exact Hb.
Qed.

Lemma restart_button_iff_game_over_witness :
  restartButtonShown first_frame = isGameOver first_frame.
Proof.
  exact (restart_button_iff_game_over first_frame first_frame_reachable).
Defined.

Lemma pipes_at_forall m a obs :
  1 <= a <= 90 ->
  pipes_at 0 m a obs ->
  Forall (fun o => exists b, 1 <= b /\ aged b o /\
                             Obstacle.passed o = (134 <=? b)) obs.
Proof.
  intros Ha. unfold pipes_at. destruct (_ && _).
  - intros (o2 & o1 & -> & [A2 P2] & [A1 P1]).
    replace (a + 90 - 0) with (a + 90) in P2 by lia.
    replace (a - 0) with a in P1 by lia.
    constructor; [exists (a + 90); split; [lia|auto]|].
    constructor; [exists a; split; [lia|auto]|constructor].
  - intros (o1 & -> & [A1 P1]). replace (a - 0) with a in P1 by lia.
    constructor; [exists a; split; [lia|auto]|constructor].
Qed.

(** X8: the score is a function of the frame counter.  In every reachable
    state the counter is at least 1 and the score is
    [max 0 ((frameCount - 44) / 90)]: the first point comes with frame 134
    and one more every 90 frames.  Every obstacle on screen has had at
    least one update and carries the flag exactly when it has had 134. *)
Theorem score_from_frame_count (g : Game) :
  reachable g ->
  1 <= frameCount g /\
  score g = Z.max 0 ((frameCount g - 44) / 90) /\
  Forall (fun o => exists b, 1 <= b /\ aged b o /\
                             Obstacle.passed o = (134 <=? b))
    (obstacles g).
Proof.
  intros H.
  destruct (reachable_run_inv g H)
    as (_ & _ & m & a & Hm & Ha & Ht & Hpipes & Hs).
  split; [lia|]. split; [exact Hs|]. exact (pipes_at_forall m a _ Ha Hpipes).
Qed.

Lemma score_from_frame_count_witness :
  exists g,
    play 0 (take 133 keys_one_pipe) first_frame = Some g /\
    frameCount g = 134 /\
    score g = Z.max 0 ((frameCount g - 44) / 90) /\
    score g = 1.
Proof.
  assert (H : (fun g => (frameCount g, score g))
                <$> play 0 (take 133 keys_one_pipe) first_frame
              = Some (134, 1))
    by (vm_compute; reflexivity).
  destruct (play 0 (take 133 keys_one_pipe) first_frame) as [g|] eqn:E;
    [|discriminate H].
  injection H as H1 H2. exists g. split; [reflexivity|].
  split; [exact H1|]. split; [|exact H2].
  apply (score_from_frame_count g).
  exact (play_reachable _ _ _ _ first_frame_reachable E).
Defined.

(** X9: obstacles are evenly spaced.  In every reachable state there is
    one obstacle or two; there are two exactly from frame 91 on while the
    newest is at most 60 updates old, the older one comes first, and the
    two are exactly 270 apart.  Every obstacle is between [x = -50] and
    [x = 397]. *)
Theorem obstacles_evenly_spaced (g : Game) :
  reachable g ->
  ((exists o, obstacles g = [o]) \/
   (exists o2 o1, obstacles g = [o2; o1] /\
                  (Obstacle.x o1 - Obstacle.x o2 == 270)%Q)) /\
  length (obstacles g) =
    (if (91 <=? frameCount g) && ((frameCount g - 1) mod 90 <? 60)
     then 2%nat else 1%nat) /\
  Forall (fun o => (-50 <= Obstacle.x o)%Q /\ (Obstacle.x o <= 397)%Q)
    (obstacles g).
Proof.
  intros H.
  destruct (reachable_run_inv g H)
    as (_ & _ & m & a & Hm & Ha & Ht & Hpipes & _).
  assert (Hmod : (frameCount g - 1) mod 90 = a - 1).
  { rewrite Ht. replace (90 * m + a - 1) with (a - 1 + m * 90) by lia.
    rewrite Z.mod_add by lia. apply Z.mod_small. lia. }
  assert (Hc : (91 <=? frameCount g) && ((frameCount g - 1) mod 90 <? 60)
               = (1 <=? m) && (a <=? 60)).
  { rewrite Hmod, Ht.
    destruct (Z.leb_spec 91 (90 * m + a)), (Z.leb_spec 1 m),
      (Z.ltb_spec (a - 1) 60), (Z.leb_spec a 60); reflexivity || lia. }
  assert (Hx : forall b o, 1 <= b <= 150 -> aged b o ->
                 (-50 <= Obstacle.x o)%Q /\ (Obstacle.x o <= 397)%Q).
  { intros b o [Hb1 Hb2] [Hxo _]. Qconsts.
    rewrite Zle_Qle in Hb1, Hb2.
    change (inject_Z 1) with 1%Q in Hb1.
    change (inject_Z 150) with 150%Q in Hb2. split; lra. }
  rewrite Hc. unfold pipes_at in Hpipes.
  destruct ((1 <=? m) && (a <=? 60)) eqn:C.
  - apply andb_true_iff in C as [_ C]. apply Z.leb_le in C.
    destruct Hpipes as (o2 & o1 & -> & [[X2 W2] _] & [[X1 W1] _]).
    split; [right|split; [reflexivity|]].
    + exists o2, o1. split; [reflexivity|].
      rewrite X1, X2, inject_Z_plus. Qconsts.
      change (inject_Z 90) with 90%Q. ring.
    + constructor; [apply (Hx (a + 90)); [lia|split; assumption]|].
      constructor; [apply (Hx a); [lia|split; assumption]|constructor].
  - destruct Hpipes as (o1 & -> & [A1 _]).
    split; [left; eauto|split; [reflexivity|]].
    constructor; [apply (Hx a); [lia|exact A1]|constructor].
Qed.

Lemma obstacles_evenly_spaced_witness :
  exists g,
    play 0 (take 103 keys_one_pipe) first_frame = Some g /\
    exists o2 o1, obstacles g = [o2; o1] /\
                  (Obstacle.x o1 - Obstacle.x o2 == 270)%Q.
Proof.
  assert (H : (fun g => length (obstacles g))
                <$> play 0 (take 103 keys_one_pipe) first_frame
              = Some 2%nat)
    by (vm_compute; reflexivity).
  destruct (play 0 (take 103 keys_one_pipe) first_frame) as [g|] eqn:E;
    [|discriminate H].
  injection H as H. exists g. split; [reflexivity|].
  destruct (obstacles_evenly_spaced g
              (play_reachable _ _ _ _ first_frame_reachable E))
    as ([(o & Ho) | Hd] & _).
  - rewrite Ho in H. discriminate H.
  - exact Hd.
Defined.

(** ** Scoring, over the life of an obstacle *)

Lemma score_obstacle_checked p o s :
  score_obstacle p o s =
    (checked p o,
     s + (if plane_past p o && negb (Obstacle.passed o) then 1 else 0)).
Proof.
  unfold score_obstacle, checked, plane_past.
  destruct (_ && _); [reflexivity|]. f_equal. lia.
Qed.

(** A plane that strikes an obstacle overlaps it, so it is not past it. *)
Lemma pipe_hit_not_past p o : pipe_hit p o = true -> plane_past p o = false.
Proof.
  unfold pipe_hit, plane_past.
  destruct (Qltb (Plane.x p) (Obstacle.x o + Obstacle.width o)) eqn:E.
  - intros _. apply Qgtb_le. apply Qltb_lt in E. lra.
  - rewrite andb_false_r. discriminate.
Qed.

Lemma checked_not_past p o : plane_past p o = false -> checked p o = o.
Proof. unfold checked. now intros ->. Qed.

Lemma checked_scored p o o' :
  scored_or_same p o o' -> checked p o = o -> o' = checked p o.
Proof.
  intros [-> | (Hf & Hc & ->)] Hk; [now rewrite Hk|].
  unfold checked, plane_past. now rewrite Hc, Hf.
Qed.

(** [checkCollision]'s loop on a list in which only the first obstacle can
    be due for scoring: every obstacle is left as the scoring statement
    leaves it, also when the loop ends early on a strike. *)
Lemma checkCollision_loop_checked p obs s :
  Forall (fun o => checked p o = o) (tail obs) ->
  Forall2 (fun o o' => o' = checked p o) obs (checkCollision_loop p obs s).1.2.
Proof.
  destruct obs as [|o rest]; cbn [tail checkCollision_loop]; intros Hrest.
  - constructor.
  - destruct (pipe_hit p o) eqn:Hh.
    + cbn. constructor.
      * symmetry. apply checked_not_past, pipe_hit_not_past, Hh.
      * clear -Hrest. induction Hrest as [|a l Ha _ IH]; constructor; auto.
    + rewrite score_obstacle_checked.
      set (s2 := s + _).
      pose proof (checkCollision_loop_scores p rest s2) as Hsc.
      destruct (checkCollision_loop p rest s2) as [[h r] s3].
      destruct Hsc as [_ HF]. cbn. constructor; [reflexivity|].
      clear -HF Hrest. induction HF as [|a b l l' Hab _ IH]; [constructor|].
      inversion Hrest as [|? ? Ha Hl]; subst.
      constructor; [now apply checked_scored|now apply IH].
Qed.

(** In a list that fits the counter, only the first obstacle can be due. *)
Lemma pipes_at_tail p d m a obs :
  Plane.x p = 50%Q -> 1 <= a <= 90 ->
  pipes_at d m a obs -> Forall (fun o => checked p o = o) (tail obs).
Proof.
  intros Hx Ha. unfold pipes_at.
  destruct ((1 <=? m) && (a <=? 60)) eqn:C.
  - apply andb_true_iff in C as [_ C]. apply Z.leb_le in C.
    intros (o2 & o1 & -> & _ & [A1 _]). cbn [tail].
    constructor; [|constructor]. apply checked_not_past.
    unfold plane_past. rewrite Hx, (aged_passed_iff a o1 A1).
    destruct (Z.leb_spec 134 a); [lia|reflexivity].
  - intros (o1 & -> & _). constructor.
Qed.

Lemma Plane_update_this_x this g :
  Plane.x (Plane_update_this this g).1 = Plane.x this.
Proof.
  unfold Plane_update_this. cbn.
  destruct (Qgtb _ _); cbn; destruct (Qltb _ _); reflexivity.
Qed.

(** What a running frame hands to the loop of [checkCollision], and what
    it keeps of the result. *)
Lemma update_checks r g g' :
  isGameOver g = false ->
  update r g = Some g' ->
  exists p p',
    plane g = Some p /\ plane g' = Some p' /\ Plane.x p' = Plane.x p /\
    obstacles g' =
      (checkCollision_loop p' (next_obstacles r g) (score g)).1.2 /\
    score g' = (checkCollision_loop p' (next_obstacles r g) (score g)).2.
Proof.
  intros Ho E.
  destruct (update_running r g g' Ho E)
    as (this & g1 & this' & hit & Hp & E1 & E5).
  cbn zeta in E5. set (g4 := set_obstacles _ _) in E5.
  rewrite (checkCollision_spec g4 this' eq_refl) in E5.
  change (obstacles g4) with (next_obstacles r g) in E5.
  change (score g4) with (score g1) in E5.
  pose proof (Plane_update_this_effect this g) as Hg.
  pose proof (Plane_update_this_x this g) as Hx.
  rewrite E1 in Hg, Hx. cbn [fst snd] in Hg, Hx.
  destruct Hg as (_ & _ & Hs1 & _). rewrite Hs1 in E5.
  exists this, this'. split; [exact Hp|].
  destruct (checkCollision_loop this' (next_obstacles r g) (score g))
    as [[h obs'] s'].
  injection E5 as _ <-. cbn [fst snd].
  destruct h; [|repeat split; assumption].
  destruct (gameOver_keeps (set_score s' (set_obstacles obs' g4)))
    as (-> & -> & -> & _).
  repeat split; assumption.
Qed.

(** Every obstacle the backwards loop keeps is one of the list, moved
    once. *)
Lemma update_obstacles_from l :
  Forall (fun o => exists o0, o0 ∈ l /\ o = Obstacle.update o0)
    (update_obstacles l).
Proof.
  induction l as [|a l IH]; cbn [update_obstacles]; [constructor|].
  assert (IH' : Forall (fun o => exists o0, o0 ∈ a :: l /\
                                   o = Obstacle.update o0)
                  (update_obstacles l)).
  { eapply Forall_impl; [exact IH|]. intros o (o0 & Hin & ->).
    exists o0. split; [apply elem_of_cons; now right|reflexivity]. }
  destruct (Qltb _ _); [exact IH'|].
  constructor; [|exact IH'].
  exists a. split; [apply elem_of_cons; now left|reflexivity].
Qed.

(** The plane stays past an obstacle that moves on. *)
Lemma plane_past_update p p' o :
  Plane.x p' = Plane.x p ->
  plane_past p o = true -> plane_past p' (Obstacle.update o) = true.
Proof.
  unfold plane_past. intros ->. rewrite !Qgtb_gt. cbn. Qconsts. lra.
Qed.

Lemma reachable_flags g :
  reachable g ->
  exists p, plane g = Some p /\ Plane.x p = 50%Q /\
    Forall (fun o => Obstacle.passed o = plane_past p o) (obstacles g).
Proof.
  intros H.
  destruct (reachable_run_inv g H)
    as ((p & Hp & Hok) & _ & m & a & Hm & Ha & _ & Hpipes & _).
  destruct Hok as (Hx & _).
  exists p. split; [exact Hp|]. split; [exact Hx|].
  eapply Forall_impl; [exact (pipes_at_forall m a _ Ha Hpipes)|].
  intros o (b & _ & Hb & ->). unfold plane_past. rewrite Hx.
  symmetry. now apply aged_passed_iff.
Qed.

(** C4: the life of an obstacle in the game, frame by frame.  In every
    state reached from a restart by frames and inputs the [passed] flag of
    every obstacle in the list is set exactly when the plane is past it
    ([p.x > obs.x + obs.width]).  An input to the running game touches
    neither the flags nor the score, and a frame of a game that is over
    changes nothing.  A frame of the running game hands [checkCollision]
    the old obstacles, each moved once (and a new one when a spawn is due),
    with their flags as they were; an obstacle the plane was past stays so.
    The frame leaves each of them as the scoring statement leaves it: the
    flag is set when the plane is past the obstacle and the flag was false,
    that is, on the first frame on which the plane is past it; a flag that
    is set stays set.  The score goes up by exactly the number of flags
    that went from false to true in this frame, which is at most 1, so an
    obstacle that has scored adds nothing on the later frames on which the
    plane is still past it. *)
Theorem passed_once (g : Game) :
  reachable g ->
  exists p,
    plane g = Some p /\
    Forall (fun o => Obstacle.passed o = plane_past p o) (obstacles g) /\
    (forall r g',
       isGameOver g = false -> handleInput r g = Some g' ->
       obstacles g' = obstacles g /\ score g' = score g) /\
    (forall r g',
       loop r g = Some g' ->
       if isGameOver g then g' = g
       else
         exists p',
           plane g' = Some p' /\
           Forall (fun o => exists o0,
                     (o0 ∈ obstacles g \/ o0 = Obstacle.new r) /\
                     o = Obstacle.update o0 /\
                     Obstacle.passed o = plane_past p o0 /\
                     (plane_past p o0 = true -> plane_past p' o = true))
             (next_obstacles r g) /\
           Forall2 (fun o o' => o' = checked p' o)
             (next_obstacles r g) (obstacles g') /\
           Forall (fun o' => Obstacle.passed o' = plane_past p' o')
             (obstacles g') /\
           score g' = score g + newly_passed (next_obstacles r g) (obstacles g') /\
           score g' <= score g + 1).
Proof.
  intros Hr.
  destruct (reachable_flags g Hr) as (p & Hp & Hx & Hflags).
  exists p. split; [exact Hp|]. split; [exact Hflags|]. split.
  { intros r g' Ho. unfold handleInput. rewrite Ho, Hp.
    cbn [mbind option_bind]. intros [= <-]. split; reflexivity. }
  intros r g' E. destruct (isGameOver g) eqn:Ho.
  { unfold loop, update in E. rewrite Ho in E. now injection E as <-. }
  unfold loop in E.
  destruct (update_checks r g g' Ho E) as (p0 & p' & Hp0 & Hp' & Hxx & Hobs & Hsc).
  rewrite Hp in Hp0. injection Hp0 as <-.
  assert (Hx' : Plane.x p' = 50%Q) by congruence.
  destruct (reachable_flags g' (reach_frame r g g' Hr E))
    as (q & Hq & _ & Hflags').
  rewrite Hp' in Hq. injection Hq as <-.
  destruct (reachable_run_inv g Hr)
    as (_ & _ & m & a & Hm & Ha & Ht & Hpipes & _).
  destruct (score_of_frames m a Hm Ha) as (_ & _ & Ha' & Hrem & _).
  cbn zeta in Hrem. rewrite <- Ht in Hrem.
  pose proof (pipes_at_moved r m a (obstacles g) Hm Ha Hpipes) as Hmoved.
  rewrite <- Hrem in Hmoved at 3.
  change (update_obstacles _) with (next_obstacles r g) in Hmoved.
  pose proof (pipes_at_checked p' _ _ _ (score g) Hx' Ha' Hmoved) as [_ Hone].
  pose proof (checkCollision_loop_checked p' (next_obstacles r g) (score g)
                (pipes_at_tail p' _ _ _ _ Hx' Ha' Hmoved)) as Hck.
  pose proof (checkCollision_loop_scores p' (next_obstacles r g) (score g))
    as Hnew.
  destruct (checkCollision_loop p' (next_obstacles r g) (score g))
    as [[h obs'] s'].
  cbn [fst snd] in Hobs, Hsc, Hone, Hck. destruct Hnew as [Hnew _].
  subst obs' s'.
  exists p'. split; [exact Hp'|]. split.
  { unfold next_obstacles.
    eapply Forall_impl; [apply update_obstacles_from|].
    intros o (o0 & Hin & ->).
    assert (Hin' : o0 ∈ obstacles g \/ o0 = Obstacle.new r).
    { revert Hin.
      destruct (Z.rem (frameCount g) PIPE_SPAWN_INTERVAL =? 0);
        intros Hin; [|now left].
      apply elem_of_app in Hin as [Hin|Hin]; [now left|].
      right. now apply list_elem_of_singleton in Hin. }
    exists o0. split; [exact Hin'|]. split; [reflexivity|].
    split; [|now apply plane_past_update].
    destruct Hin' as [Hin'| ->].
    - rewrite Forall_forall in Hflags. exact (Hflags o0 Hin').
    - unfold plane_past. rewrite Hx. reflexivity. }
  split; [exact Hck|]. split; [exact Hflags'|].
  split; [exact Hnew|]. rewrite Hone.
  destruct (_ && _); lia.
Qed.

(** Frame 134 of the sample run, the first on which the plane is past the
    first obstacle: the frame sets one flag and the score goes from 0 to
    1. *)
Lemma passed_once_witness :
  exists g g',
    play 0 (take 132 keys_one_pipe) first_frame = Some g /\
    loop 0 g = Some g' /\
    frameCount g' = 134 /\
    score g = 0 /\ score g' = 1 /\
    newly_passed (next_obstacles 0 g) (obstacles g') = 1.
Proof.
  assert (H : (fun g => (isGameOver g, score g,
                         (fun g' => (frameCount g', score g')) <$> loop 0 g))
                <$> play 0 (take 132 keys_one_pipe) first_frame
              = Some (false, 0, Some (134, 1)))
    by (vm_compute; reflexivity).
  destruct (play 0 (take 132 keys_one_pipe) first_frame) as [g|] eqn:E;
    [|discriminate H].
  cbn [fmap option_fmap option_map] in H.
  destruct (loop 0 g) as [g'|] eqn:E'; [|discriminate H].
  cbn [fmap option_fmap option_map] in H.
  injection H as Ho Hs Hf Hs'.
  exists g, g'. split; [reflexivity|]. split; [exact E'|].
  split; [exact Hf|]. split; [exact Hs|]. split; [exact Hs'|].
  destruct (passed_once g (play_reachable _ _ _ _ first_frame_reachable E))
    as (p & _ & _ & _ & Hframe).
  specialize (Hframe 0%Q g' E'). rewrite Ho in Hframe.
  destruct Hframe as (p' & _ & _ & _ & _ & Hsc & _). lia.
Defined.

(** ** What ends a run *)

Lemma Plane_update_this_over this g :
  isGameOver g = false ->
  isGameOver (Plane_update_this this g).2 =
    Qgtb (Plane.y this + (Plane.velocity this + GRAVITY) + Plane.height this)
      (CANVAS_HEIGHT - 30).
Proof.
  intros Ho. unfold Plane_update_this. cbn. rewrite Ho. cbn.
  destruct (Qgtb _ _); cbn.
  - destruct (Qltb _ _); cbn; apply gameOver_is_over.
  - destruct (Qltb _ _); cbn; exact Ho.
Qed.

Lemma checkCollision_loop_hit_iff p obs s :
  (checkCollision_loop p obs s).1.1 = true <->
  Exists (fun o => pipe_hit p o = true) obs.
Proof.
  pose proof (checkCollision_loop_stops p obs s) as H.
  destruct (checkCollision_loop p obs s) as [[h obs'] s']. cbn.
  destruct h.
  - destruct H as (pre & o & post & _ & -> & _ & Hh & _).
    split; [intros _|reflexivity].
    apply Exists_app. right. now constructor.
  - split; [discriminate|]. intros Hex.
    apply Exists_exists in Hex as (o & Ho & Hh).
    rewrite Forall_forall in H. rewrite (H o Ho) in Hh. discriminate.
Qed.

Lemma update_moved_obstacles r g g' :
  isGameOver g = false ->
  update r g = Some g' ->
  exists p', Forall2 (scored_or_same p') (next_obstacles r g) (obstacles g').
Proof.
  intros Ho E.
  destruct (update_running r g g' Ho E)
    as (this & g1 & this' & hit & Hp & E1 & E5).
  cbn zeta in E5. set (g4 := set_obstacles _ _) in E5.
  rewrite (checkCollision_spec g4 this' eq_refl) in E5.
  change (obstacles g4) with (next_obstacles r g) in E5.
  pose proof (checkCollision_loop_scores this' (next_obstacles r g) (score g4))
    as Hsc.
  destruct (checkCollision_loop this' (next_obstacles r g) (score g4))
    as [[h obs'] s'].
  destruct Hsc as [_ HF]. injection E5 as _ <-. exists this'.
  destruct h; [|exact HF].
  destruct (gameOver_keeps (set_score s' (set_obstacles obs' g4)))
    as (_ & -> & _). exact HF.
Qed.

Lemma frame_step (r : Q) (g : Game) (this : Plane.t) :
  isGameOver g = false ->
  plane g = Some this ->
  exists g',
    update r g = Some g' /\
    plane g' = Some (Plane_update_this this g).1 /\
    frameCount g' = frameCount g + 1 /\
    Forall2 (scored_or_same (Plane_update_this this g).1)
      (next_obstacles r g) (obstacles g') /\
    (isGameOver g' = true <->
     (Plane.y this + (Plane.velocity this + GRAVITY) + Plane.height this
      > CANVAS_HEIGHT - 30)%Q \/
     Exists (fun o => pipe_hit (Plane_update_this this g).1 o = true)
       (next_obstacles r g)).
Proof.
  intros Ho Hp.
  destruct (update_total r g) as (g' & E & _); [congruence|].
  exists g'. split; [exact E|].
  destruct (update_running r g g' Ho E)
    as (this0 & g1 & this' & hit & Hp0 & E1 & E5).
  cbn zeta in E5. rewrite Hp in Hp0. injection Hp0 as <-.
  pose proof (Plane_update_this_over this g Ho) as Hover.
  rewrite E1 in *. cbn [fst snd] in *.
  set (g4 := set_obstacles _ _) in E5.
  rewrite (checkCollision_spec g4 this' eq_refl) in E5.
  change (obstacles g4) with (next_obstacles r g) in E5.
  pose proof (checkCollision_loop_hit_iff this' (next_obstacles r g) (score g4))
    as Hhit.
  pose proof (checkCollision_loop_scores this' (next_obstacles r g) (score g4))
    as Hsc.
  destruct (checkCollision_loop this' (next_obstacles r g) (score g4))
    as [[h obs'] s'].
  cbn [fst snd] in Hhit. destruct Hsc as [_ HF]. injection E5 as _ <-.
  set (g5 := set_score s' (set_obstacles obs' g4)).
  assert (O5 : isGameOver g5 = isGameOver g1) by reflexivity.
  rewrite <- Qgtb_gt, <- Hover, <- Hhit.
  destruct h.
  - destruct (gameOver_keeps g5) as (-> & -> & _ & -> & _).
    split; [reflexivity|]. split; [reflexivity|]. split; [exact HF|].
    rewrite gameOver_is_over. split; auto.
  - split; [reflexivity|]. split; [reflexivity|]. split; [exact HF|].
    rewrite O5. split; [auto|]. intros [H|H]; [exact H|discriminate].
Qed.

(** X10: a frame of a running game always goes through, counts itself,
    and ends the run exactly when the plane, after gravity, is past the
    ground line or strikes one of the obstacles as moved in this frame;
    nothing else ends a run.  The obstacles it leaves are the moved ones,
    with at most some flags set. *)
Theorem frame_ends_run_iff (r : Q) (g : Game) (this : Plane.t) :
  isGameOver g = false ->
  plane g = Some this ->
  exists g',
    update r g = Some g' /\
    plane g' = Some (Plane_update_this this g).1 /\
    frameCount g' = frameCount g + 1 /\
    Forall2 (scored_or_same (Plane_update_this this g).1)
      (next_obstacles r g) (obstacles g') /\
    (isGameOver g' = true <->
     (Plane.y this + (Plane.velocity this + GRAVITY) + Plane.height this
      > CANVAS_HEIGHT - 30)%Q \/
     Exists (fun o => pipe_hit (Plane_update_this this g).1 o = true)
       (next_obstacles r g)).
Proof. exact (frame_step r g this). Qed.

Lemma frame_ends_run_iff_witness :
  exists g',
    update 0 first_frame = Some g' /\
    frameCount g' = frameCount first_frame + 1 /\
    (isGameOver g' = true <->
     (Plane.y plane_after_first_frame
      + (Plane.velocity plane_after_first_frame + GRAVITY)
      + Plane.height plane_after_first_frame > CANVAS_HEIGHT - 30)%Q \/
     Exists (fun o => pipe_hit
                        (Plane_update_this plane_after_first_frame
                           first_frame).1 o = true)
       (next_obstacles 0 first_frame)).
Proof.
  destruct (frame_ends_run_iff 0 first_frame plane_after_first_frame)
    as (g' & H1 & _ & H2 & _ & H3); [reflexivity|reflexivity|].
  exists g'. auto.
Defined.

(** ** Gaps *)

Lemma gap_ok_new r : (0 <= r)%Q -> (r < 1)%Q -> gap_ok (Obstacle.new r).
Proof.
  intros H0 H1.
  pose proof (Qfloor_scaled_range r 331 eq_refl H0 H1) as [Hlo Hhi].
  rewrite Zle_Qle in Hlo. rewrite Zle_Qle in Hhi.
  change (inject_Z 0) with 0%Q in Hlo.
  change (inject_Z (331 - 1)) with 330%Q in Hhi.
  assert (E : (Obstacle.topHeight (Obstacle.new r) ==
               inject_Z (Qfloor (r * inject_Z 331)) + 50)%Q) by reflexivity.
  assert (Eb : (Obstacle.bottomY (Obstacle.new r) ==
                Obstacle.topHeight (Obstacle.new r) + 140)%Q) by reflexivity.
  assert (Eh : (Obstacle.bottomHeight (Obstacle.new r) ==
                600 - Obstacle.bottomY (Obstacle.new r) - 30)%Q) by reflexivity.
  unfold gap_ok. repeat split; lra.
Qed.

Lemma gap_ok_update o : gap_ok o -> gap_ok (Obstacle.update o).
Proof. intros H. exact H. Qed.

Lemma gap_ok_scored p o o' : scored_or_same p o o' -> gap_ok o -> gap_ok o'.
Proof. intros [-> | (_ & _ & ->)] H; exact H. Qed.

Lemma update_obstacles_gap_ok obs :
  Forall gap_ok obs -> Forall gap_ok (update_obstacles obs).
Proof.
  induction 1 as [|o obs Ho _ IH]; cbn; [constructor|].
  destruct (Qltb _ _); [exact IH|].
  constructor; [exact (gap_ok_update o Ho)|exact IH].
Qed.

Lemma Forall2_gap_ok p obs obs' :
  Forall2 (scored_or_same p) obs obs' ->
  Forall gap_ok obs -> Forall gap_ok obs'.
Proof.
  induction 1 as [|o o' obs obs' S _ IH]; intros H; [constructor|].
  inversion H; subst. constructor; [eapply gap_ok_scored; eauto|auto].
Qed.

Lemma dispatch_gap_ok e g g' :
  (0 <= event_draw e)%Q -> (event_draw e < 1)%Q ->
  Forall gap_ok (obstacles g) ->
  dispatch e g = Some g' ->
  Forall gap_ok (obstacles g').
Proof.
  intros H0 H1 HF.
  assert (Hstart : forall r, r = event_draw e ->
            startGame r g = Some g' -> Forall gap_ok (obstacles g')).
  { intros r -> H. rewrite startGame_eq in H. injection H as <-. cbn.
    constructor; [|constructor]. apply gap_ok_update, gap_ok_new; assumption. }
  assert (Hin : forall r, r = event_draw e ->
            handleInput r g = Some g' -> Forall gap_ok (obstacles g')).
  { intros r Hr. unfold handleInput. destruct (isGameOver g); [now apply Hstart|].
    destruct (plane g); [|discriminate]. now intros [= <-]. }
  destruct e as [r|code r|r|r|r]; cbn [dispatch event_draw] in *; intros H.
  - destruct (isGameOver g) eqn:Ho.
    { unfold loop, update in H. rewrite Ho in H. now injection H as <-. }
    destruct (plane g) as [this|] eqn:Hp.
    2:{ unfold loop, update, Plane_update in H. rewrite Ho, Hp in H.
        discriminate. }
    destruct (update_moved_obstacles r g g' Ho H) as (p' & HF2).
    apply (Forall2_gap_ok p' _ _ HF2). unfold next_obstacles.
    apply update_obstacles_gap_ok. destruct (_ =? _); [|exact HF].
    apply Forall_app. split; [exact HF|].
    constructor; [|constructor]. now apply gap_ok_new.
  - unfold onKeydown in H. destruct (String.eqb code "Space").
    + now apply (Hin r).
    + now injection H as <-.
  - now apply (Hin r).
  - now apply (Hin r).
  - now apply (Hstart r).
Qed.

(** X11: obstacles keep the gap they were built with.  If every random
    draw of a session lies in [[0, 1)] and the obstacles at its start have
    a well-placed gap (none is a case), then so has every obstacle at its
    end: [50 <= topHeight <= 380], [bottomY = topHeight + 140] and
    [bottomHeight = 570 - bottomY]; moving and scoring leave the gap
    alone. *)
Theorem session_gaps_stay (es : list event) (g g' : Game) :
  Forall (fun e => (0 <= event_draw e)%Q /\ (event_draw e < 1)%Q) es ->
  Forall gap_ok (obstacles g) ->
  session es g = Some g' ->
  Forall gap_ok (obstacles g').
Proof.
  revert g. induction es as [|e es IH]; intros g Hes Hg; cbn [session].
  - now intros [= <-].
  - destruct (dispatch e g) as [g1|] eqn:E; [|discriminate].
    cbn [mbind option_bind]. inversion Hes as [|? ? [H0 H1] Hes']; subst.
    apply IH; [exact Hes'|].
    exact (dispatch_gap_ok e g g1 H0 H1 Hg E).
Qed.

Lemma session_gaps_stay_witness :
  exists g',
    session sample_session newcomer = Some g' /\
    Forall gap_ok (obstacles g').
Proof.
  destruct (session sample_session newcomer) as [g'|] eqn:E.
  - exists g'. split; [reflexivity|].
    apply (session_gaps_stay sample_session newcomer g'); [| |exact E].
    + repeat constructor; vm_compute; congruence.
    + constructor.
  - vm_compute in E. discriminate.
Defined.

(** ** Passing and striking *)

Lemma iter_update_left n o :
  (Obstacle.x (Nat.iter n Obstacle.update o) <= Obstacle.x o)%Q /\
  Obstacle.width (Nat.iter n Obstacle.update o) = Obstacle.width o.
Proof.
  induction n as [|n [IHx IHw]]; [split; [apply Qle_refl|reflexivity]|].
  rewrite Nat.iter_succ. cbn [Obstacle.update Obstacle.x Obstacle.width].
  split; [Qconsts; lra|exact IHw].
Qed.

(** X12: an obstacle the plane has passed can never strike it: once the
    plane's [x] is beyond [obs.x + obs.width], no number of further updates
    of the obstacle brings it back into a pipe strike, at whatever height
    the plane is, and the passing condition keeps holding. *)
Theorem passed_obstacle_never_strikes (p q : Plane.t) (o : Obstacle.t)
    (n : nat) :
  Qgtb (Plane.x p) (Obstacle.x o + Obstacle.width o) = true ->
  Plane.x q = Plane.x p ->
  pipe_hit q (Nat.iter n Obstacle.update o) = false /\
  Qgtb (Plane.x q)
    (Obstacle.x (Nat.iter n Obstacle.update o)
     + Obstacle.width (Nat.iter n Obstacle.update o)) = true.
Proof.
  intros H Hx. apply Qgtb_gt in H.
  destruct (iter_update_left n o) as [Hle Hw].
  assert (Hgt : (Obstacle.x (Nat.iter n Obstacle.update o)
                 + Obstacle.width (Nat.iter n Obstacle.update o)
                 < Plane.x q)%Q) by (rewrite Hw, Hx; lra).
  split; [|now apply Qgtb_gt].
  unfold pipe_hit.
  replace (Qltb (Plane.x q)
             (Obstacle.x (Nat.iter n Obstacle.update o)
              + Obstacle.width (Nat.iter n Obstacle.update o)))
    with false by (symmetry; apply Qltb_ge; lra).
  now rewrite andb_false_r.
Qed.

Lemma passed_obstacle_never_strikes_witness :
  let o := Obstacle.mk (-2) 50 true 215 355 215 in
  pipe_hit (Plane.mk 50 0 40 30 0 0) (Nat.iter 7 Obstacle.update o) = false.
Proof.
  intros o.
  apply (passed_obstacle_never_strikes Plane.new (Plane.mk 50 0 40 30 0 0) o 7);
    reflexivity.
Defined.

(** ** Drawing an obstacle *)

Lemma window_row_succ y i :
  window_row (y + (windowSize + windowGap)) i = window_row y (S i).
Proof.
  unfold window_row. induction i as [|i IH]; [reflexivity|].
  rewrite Nat.iter_succ, IH. reflexivity.
Qed.

Lemma window_row_val y i :
  (window_row y i == y + 25 * inject_Z (Z.of_nat i))%Q.
Proof.
  unfold window_row. induction i as [|i IH].
  - cbn. ring.
  - rewrite Nat.iter_succ, IH, Nat2Z.inj_succ. unfold Z.succ.
    rewrite inject_Z_plus. unfold windowSize, windowGap.
    change (inject_Z 1) with 1%Q. ring.
Qed.

Lemma rows_fuel_step y limit :
  (y < limit)%Q ->
  (S (rows_fuel (y + (windowSize + windowGap)) limit) <= rows_fuel y limit)%nat.
Proof.
  intros H. unfold rows_fuel, windowSize, windowGap.
  pose proof (Qle_ceiling (limit - y)) as H1.
  pose proof (Qceiling_lt (limit - (y + (15 + 10)))) as H2.
  set (c := Qceiling (limit - y)) in *.
  set (c' := Qceiling (limit - (y + (15 + 10)))) in *.
  assert (Hc : 0 < c).
  { rewrite Zlt_Qlt. change (inject_Z 0) with 0%Q. lra. }
  assert (Hc' : c' - 1 + 25 < c).
  { rewrite Zlt_Qlt, inject_Z_plus.
    change (inject_Z 25) with 25%Q. lra. }
  lia.
Qed.

(** With enough fuel the loop leaves by its condition: the rows are the
    first [k] values of the loop variable, all below the limit, and the
    next value is not. *)
Lemma window_rows_complete fuel y limit :
  (rows_fuel y limit <= fuel)%nat ->
  exists k,
    window_rows fuel y limit = map (window_row y) (seq 0 k) /\
    (forall i, (i < k)%nat -> (window_row y i < limit)%Q) /\
    (limit <= window_row y k)%Q.
Proof.
  revert y. induction fuel as [|fuel IH]; intros y Hf.
  - exists 0%nat. cbn. split; [reflexivity|]. split; [lia|].
    unfold rows_fuel in Hf.
    destruct (Qlt_le_dec y limit) as [Hlt|Hle]; [|exact Hle].
    pose proof (Qle_ceiling (limit - y)) as H1.
    assert (0 < Qceiling (limit - y)).
    { rewrite Zlt_Qlt. change (inject_Z 0) with 0%Q. lra. }
    lia.
  - cbn [window_rows]. destruct (Qltb y limit) eqn:E.
    + apply Qltb_lt in E. pose proof (rows_fuel_step y limit E) as Hs.
      destruct (IH (y + (windowSize + windowGap))%Q) as (k & Hk & Hlt & Hge);
        [lia|].
      exists (S k). split; [|split].
      * rewrite Hk. cbn [seq map]. f_equal.
        rewrite <- seq_shift, map_map. apply map_ext.
        intros i. apply window_row_succ.
      * intros [|i] Hi; [exact E|].
        rewrite <- window_row_succ. apply Hlt. lia.
      * rewrite <- window_row_succ. exact Hge.
    + apply Qltb_ge in E. exists 0%nat. cbn.
      split; [reflexivity|]. split; [lia|exact E].
Qed.

(** X14: the window loops of [Obstacle.draw] stop by their own condition.
    A column drawn from [y0] up to [limit] consists of the rows
    [y0, y0 + 25, y0 + 50, ...] that are below [limit], each as a 15 by 15
    rectangle at the column's [x], and of no other: the first row left
    out is at or beyond [limit]. *)
Theorem window_column_rows (windowX y0 limit : Q) :
  exists k,
    window_column windowX y0 limit =
      map (fun i => FillRect windowX (window_row y0 i) 15 15) (seq 0 k) /\
    (forall i, (window_row y0 i == y0 + 25 * inject_Z (Z.of_nat i))%Q) /\
    (forall i, (i < k)%nat -> (window_row y0 i < limit)%Q) /\
    (limit <= window_row y0 k)%Q.
Proof.
  destruct (window_rows_complete (rows_fuel y0 limit) y0 limit (le_n _))
    as (k & Hk & Hlt & Hge).
  exists k. split; [|split; [apply window_row_val|split; assumption]].
  unfold window_column. rewrite Hk, map_map. reflexivity.
Qed.

Lemma window_rows_range fuel y limit v :
  In v (window_rows fuel y limit) -> (y <= v)%Q /\ (v < limit)%Q.
Proof.
  revert y. induction fuel as [|fuel IH]; intros y; cbn; [tauto|].
  destruct (Qltb y limit) eqn:E; [|intros []].
  apply Qltb_lt in E. intros [<- | H].
  - split; [apply Qle_refl|exact E].
  - destruct (IH _ H) as [H1 H2]. unfold windowSize, windowGap in H1.
    split; [lra|exact H2].
Qed.

Lemma window_column_inside windowX y0 limit c :
  In c (window_column windowX y0 limit) ->
  exists y, c = FillRect windowX y windowSize windowSize /\
            (y0 <= y)%Q /\ (y < limit)%Q.
Proof.
  unfold window_column. intros H.
  apply in_map_iff in H as (y & <- & Hy).
  exists y. split; [reflexivity|]. exact (window_rows_range _ _ _ _ Hy).
Qed.

(** X15: every window is painted on its building.  For an obstacle of the
    constructor's width 50 whose bottom pipe reaches the ground line, each
    window [Obstacle.draw] paints lies inside the rectangle of the top
    pipe or inside that of the bottom pipe, and the windows are the last
    calls of [draw], after both bodies are painted. *)
Theorem windows_on_the_pipes (obs : Obstacle.t) :
  (Obstacle.width obs == 50)%Q ->
  (Obstacle.bottomHeight obs == CANVAS_HEIGHT - 30 - Obstacle.bottomY obs)%Q ->
  Forall
    (fun c =>
       paints_inside c
         (FillRect (Obstacle.x obs) 0 (Obstacle.width obs)
            (Obstacle.topHeight obs)) \/
       paints_inside c
         (FillRect (Obstacle.x obs) (Obstacle.bottomY obs)
            (Obstacle.width obs) (Obstacle.bottomHeight obs)))
    (Obstacle_windows obs) /\
  exists bodies,
    Obstacle_draw obs = bodies ++ Obstacle_windows obs /\
    In (FillRect (Obstacle.x obs) 0 (Obstacle.width obs)
          (Obstacle.topHeight obs)) bodies /\
    In (FillRect (Obstacle.x obs) (Obstacle.bottomY obs)
          (Obstacle.width obs) (Obstacle.bottomHeight obs)) bodies.
Proof.
  intros Hw Hb. split.
  - apply List.Forall_forall. intros c Hc. unfold Obstacle_windows in Hc.
    apply in_app_iff in Hc as [Hc | Hc];
      apply in_flat_map in Hc as (wx & Hwx & Hc);
      apply window_column_inside in Hc as (y & -> & Hy0 & Hy1);
      unfold xPositions in Hwx; cbn [In] in Hwx;
      unfold windowSize, windowGap, windowPadding in *; Qconsts.
    + left. destruct Hwx as [<- | [<- | []]]; cbn; repeat split; lra.
    + right. destruct Hwx as [<- | [<- | []]]; cbn; repeat split; lra.
  - eexists. split; [reflexivity|]. cbn. auto 10.
Qed.

Lemma windows_on_the_pipes_witness :
  Forall
    (fun c =>
       paints_inside c (FillRect 397 0 50 215) \/
       paints_inside c (FillRect 397 355 50 215))
    (Obstacle_windows (Obstacle.mk 397 50 false 215 355 215)).
Proof.
  destruct (windows_on_the_pipes (Obstacle.mk 397 50 false 215 355 215))
    as [H _]; [reflexivity|reflexivity|exact H].
Defined.

Example Obstacle_windows_count :
  length (Obstacle_windows (Obstacle.mk 397 50 false 215 355 215)) = 32%nat /\
  Obstacle_windows (Obstacle.mk 397 50 false 50 190 380) <> [] /\
  window_column 402 10 35 = [FillRect 402 10 15 15].
Proof. vm_compute. repeat split; discriminate. Qed.

(** ** One loop at a time *)

Lemma page_loop_one_loop r pg pg' :
  (animationFrameId pg = None \/
   exists id, animationFrameId pg = Some id /\ (id < nextHandle pg)%positive) ->
  pending pg = ∅ ->
  page_loop r pg = Some pg' ->
  one_loop pg' /\ animationFrameId pg' <> None /\
  exists g', update r (game pg) = Some g' /\ game pg' = g'.
Proof.
  intros Hid Hp. unfold page_loop.
  destruct (update r (game pg)) as [g|]; [|discriminate].
  cbn [mbind option_bind].
  assert (H1 : forall pg1,
             pg1 = (if negb (isGameOver (game pg)) && isGameOver g
                    then cancel_stored pg else pg) ->
             pending pg1 = ∅ /\ nextHandle pg1 = nextHandle pg).
  { intros pg1 ->. destruct (_ && _); [|auto].
    unfold cancel_stored. destruct (animationFrameId pg); [|auto].
    cbn. rewrite Hp. split; [apply empty_difference_L|reflexivity]. }
  destruct (H1 _ eq_refl) as [Hp1 Hn1].
  destruct (plane g); [|discriminate]. cbn [mbind option_bind].
  intros [= <-]. unfold request_frame. cbn. rewrite Hp1, Hn1.
  split; [|split; [discriminate|eauto]].
  right. exists (nextHandle pg). split; [reflexivity|].
  split; [apply (left_id_L ∅ (∪))|apply Pos.lt_succ_diag_r].
Qed.

Lemma cancel_stored_clears pg :
  one_loop pg ->
  pending (cancel_stored pg) = ∅ /\
  game (cancel_stored pg) = game pg /\
  nextHandle (cancel_stored pg) = nextHandle pg /\
  animationFrameId (cancel_stored pg) = animationFrameId pg.
Proof.
  unfold cancel_stored.
  intros [[Hid Hp] | (id & Hid & Hp & _)]; rewrite Hid; cbn.
  - auto.
  - rewrite Hp. split; [apply difference_diag_L|auto].
Qed.

Lemma one_loop_ids pg :
  one_loop pg ->
  animationFrameId pg = None \/
  exists id, animationFrameId pg = Some id /\ (id < nextHandle pg)%positive.
Proof. intros [[H _] | (id & H & _ & Hlt)]; eauto. Qed.

Lemma page_startGame_one_loop r pg pg' :
  one_loop pg -> page_startGame r pg = Some pg' ->
  one_loop pg' /\ animationFrameId pg' <> None.
Proof.
  intros H. unfold page_startGame.
  destruct (cancel_stored_clears pg H) as (Hp & Hg & Hn & Hi).
  intros E. apply page_loop_one_loop in E as (H1 & H2 & _); auto.
  cbn. rewrite Hi, Hn. now apply one_loop_ids.
Qed.

Lemma page_handleInput_one_loop r pg pg' :
  one_loop pg -> page_handleInput r pg = Some pg' ->
  one_loop pg' /\ (animationFrameId pg <> None -> animationFrameId pg' <> None).
Proof.
  intros H. unfold page_handleInput. destruct (isGameOver (game pg)).
  - intros E. destruct (page_startGame_one_loop r pg pg' H E). auto.
  - destruct (handleInput r (game pg)); [|discriminate].
    cbn [mbind option_bind]. intros [= <-]. split; [exact H|auto].
Qed.

Lemma page_dispatch_one_loop e pg pg' :
  one_loop pg -> page_dispatch e pg = Some pg' ->
  one_loop pg' /\ (animationFrameId pg <> None -> animationFrameId pg' <> None).
Proof.
  intros H. destruct e as [id r|code r|r|r|r]; cbn [page_dispatch].
  - destruct (decide (id ∈ pending pg)) as [Hin|Hin].
    + intros E. apply page_loop_one_loop in E as (H1 & H2 & _); auto.
      * cbn. now apply one_loop_ids.
      * cbn. destruct H as [[_ Hp] | (id' & _ & Hp & _)]; rewrite Hp in *.
        -- apply empty_difference_L.
        -- apply elem_of_singleton in Hin as ->. apply difference_diag_L.
    + intros [= <-]. auto.
  - destruct (String.eqb code "Space").
    + apply page_handleInput_one_loop, H.
    + intros [= <-]. auto.
  - apply page_handleInput_one_loop, H.
  - apply page_handleInput_one_loop, H.
  - intros E. destruct (page_startGame_one_loop r pg pg' H E). auto.
Qed.

Lemma page_session_one_loop es pg pg' :
  one_loop pg -> page_session es pg = Some pg' ->
  one_loop pg' /\ (animationFrameId pg <> None -> animationFrameId pg' <> None).
Proof.
  revert pg. induction es as [|e es IH]; intros pg H; cbn [page_session].
  - intros [= <-]. auto.
  - destruct (page_dispatch e pg) as [pg1|] eqn:E; [|discriminate].
    cbn [mbind option_bind]. intros E'.
    destruct (page_dispatch_one_loop e pg pg1 H E) as [H1 K1].
    destruct (IH pg1 H1 E') as [H2 K2]. auto.
Qed.

(** X16: there is never more than one frame loop.  From the page as
    loaded, whatever the host fires and the player does, either no game
    was started yet and no callback is pending, or exactly one callback is
    pending and [animationFrameId] is its handle.  Once a callback is
    pending one stays pending for good, in GameOver too: the
    [cancelAnimationFrame] in [gameOver] never stops the loop. *)
Theorem one_loop_at_a_time (es es' : list page_event) (g : Game)
    (pg pg' : Page) :
  page_session es (page_boot g) = Some pg ->
  page_session es' pg = Some pg' ->
  one_loop pg /\ one_loop pg' /\
  (forall id, pending pg = {[id]} -> exists id', pending pg' = {[id']}).
Proof.
  intros E E'.
  assert (H0 : one_loop (page_boot g)) by (left; split; reflexivity).
  destruct (page_session_one_loop es _ pg H0 E) as [H1 _].
  destruct (page_session_one_loop es' pg pg' H1 E') as [H2 K].
  split; [exact H1|]. split; [exact H2|].
  intros id Hid.
  destruct H1 as [[_ Hp] | (id1 & Hi1 & _)].
  { rewrite Hp in Hid. exfalso.
    assert (Hin : id ∈ (∅ : gset positive))
      by (rewrite Hid; now apply elem_of_singleton).
    exact (not_elem_of_empty id Hin). }
  destruct H2 as [[Hn _] | (id2 & _ & Hp2 & _)]; [|eauto].
  exfalso. apply K; [congruence|exact Hn].
Qed.

(** ** No handler throws *)

Lemma page_loop_safe r pg :
  plane (game pg) <> None ->
  pending pg = ∅ ->
  (animationFrameId pg = None \/
   exists id, animationFrameId pg = Some id /\ (id < nextHandle pg)%positive) ->
  exists pg', page_loop r pg = Some pg' /\ page_safe pg' /\
              pending pg' <> ∅.
Proof.
  intros Hpl Hp Hid.
  destruct (update_total r (game pg) Hpl) as (g' & E & Hpl').
  destruct (page_loop r pg) as [pg'|] eqn:EL.
  - exists pg'. split; [reflexivity|].
    destruct (page_loop_one_loop r pg pg' Hid Hp EL)
      as (H1 & H2 & g'' & E'' & Hg).
    rewrite E in E''. injection E'' as <-.
    assert (Hne : pending pg' <> ∅).
    { destruct H1 as [[Hn _] | (id & _ & Hpe & _)]; [congruence|].
      rewrite Hpe. intros Hs.
      assert (Hin : id ∈ (∅ : gset positive))
        by (rewrite <- Hs; now apply elem_of_singleton).
      exact (not_elem_of_empty id Hin). }
    split; [|exact Hne]. split; [exact H1|]. intros _. congruence.
  - exfalso. revert EL. unfold page_loop. rewrite E.
    cbn [mbind option_bind]. destruct (plane g'); [discriminate|congruence].
Qed.

Lemma page_startGame_safe r pg :
  one_loop pg ->
  exists pg', page_startGame r pg = Some pg' /\ page_safe pg'.
Proof.
  intros H. unfold page_startGame.
  destruct (cancel_stored_clears pg H) as (Hp & Hg & Hn & Hi).
  destruct (page_loop_safe r
              (mkPage (setup (game (cancel_stored pg)))
                 (animationFrameId (cancel_stored pg))
                 (pending (cancel_stored pg))
                 (nextHandle (cancel_stored pg))))
    as (pg' & E & Hs & _).
  - cbn. discriminate.
  - exact Hp.
  - cbn. rewrite Hi, Hn. now apply one_loop_ids.
  - eauto.
Qed.

Lemma page_handleInput_safe r pg :
  page_safe pg ->
  exists pg', page_handleInput r pg = Some pg' /\ page_safe pg'.
Proof.
  intros [H Hpl]. unfold page_handleInput.
  destruct (isGameOver (game pg)) eqn:Ho.
  - now apply page_startGame_safe.
  - destruct (handleInput_total r (game pg)) as (g' & E & Hpl'); [auto|].
    rewrite E. cbn [mbind option_bind]. eexists. split; [reflexivity|].
    split; [exact H|]. intros _. exact Hpl'.
Qed.

Lemma page_dispatch_safe e pg :
  page_safe pg ->
  exists pg', page_dispatch e pg = Some pg' /\ page_safe pg'.
Proof.
  intros Hs. pose proof Hs as [H Hpl].
  destruct e as [id r|code r|r|r|r]; cbn [page_dispatch].
  - destruct (decide (id ∈ pending pg)) as [Hin|Hin]; [|eauto].
    assert (Hne : pending pg <> ∅).
    { intros He. rewrite He in Hin. exact (not_elem_of_empty id Hin). }
    destruct (page_loop_safe r
                (mkPage (game pg) (animationFrameId pg)
                   (pending pg ∖ {[id]}) (nextHandle pg)))
      as (pg' & E & Hs' & _).
    + cbn. auto.
    + cbn. destruct H as [[_ Hp] | (id' & _ & Hp & _)]; rewrite Hp in *.
      * apply empty_difference_L.
      * apply elem_of_singleton in Hin as ->. apply difference_diag_L.
    + cbn. now apply one_loop_ids.
    + eauto.
  - destruct (String.eqb code "Space"); [|eauto].
    now apply page_handleInput_safe.
  - now apply page_handleInput_safe.
  - now apply page_handleInput_safe.
  - now apply page_startGame_safe.
Qed.

Lemma page_session_safe es pg :
  page_safe pg ->
  exists pg', page_session es pg = Some pg' /\ page_safe pg'.
Proof.
  revert pg. induction es as [|e es IH]; intros pg Hs; cbn [page_session].
  - eauto.
  - destruct (page_dispatch_safe e pg Hs) as (pg1 & E & Hs1).
    rewrite E. cbn [mbind option_bind]. now apply IH.
Qed.

Lemma page_boot_safe name ls : page_safe (page_boot (boot name ls)).
Proof.
  split; [left; split; reflexivity|].
  intros [H | H]; [discriminate H|]. exfalso. now apply H.
Qed.

(** X17: after the page has loaded no handler throws.  Whatever the host
    fires and the player does, every event goes through: [update],
    [handleInput] and [draw] find the plane defined whenever they need it
    (the game is running, or a frame callback is pending, only after a
    [setup]). *)
Theorem handlers_never_throw (es : list page_event)
    (name : option string) (ls : gmap string Z) :
  exists pg,
    page_session es (page_boot (boot name ls)) = Some pg /\
    one_loop pg /\
    (isGameOver (game pg) = false \/ pending pg <> ∅ ->
     plane (game pg) <> None).
Proof.
  destruct (page_session_safe es _ (page_boot_safe name ls))
    as (pg & E & H1 & H2).
  eauto.
Qed.

Lemma one_loop_at_a_time_witness :
  exists pg pg',
    page_session sample_page_session (page_boot newcomer) = Some pg /\
    page_session [Fire 41 0; Fire 42 0] pg = Some pg' /\
    isGameOver (game pg) = true /\
    one_loop pg /\ one_loop pg' /\
    exists id', pending pg' = {[id']}.
Proof.
  assert (H : (fun pg => (isGameOver (game pg), animationFrameId pg))
                <$> page_session sample_page_session (page_boot newcomer)
              = Some (true, Some 41%positive))
    by (vm_compute; reflexivity).
  destruct (page_session_safe sample_page_session _
              (page_boot_safe (Some "Bob"%string) (<[bestScoreKey := 10]> ∅)))
    as (pg & E & Hs).
  change (page_boot (boot _ _)) with (page_boot newcomer) in E.
  rewrite E in H. injection H as Ho Hi.
  destruct (page_session_safe [Fire 41 0; Fire 42 0] pg Hs) as (pg' & E' & _).
  destruct (one_loop_at_a_time sample_page_session [Fire 41 0; Fire 42 0]
              newcomer pg pg' E E') as (K1 & K2 & K3).
  exists pg, pg'. split; [exact E|]. split; [exact E'|].
  split; [exact Ho|]. split; [exact K1|]. split; [exact K2|].
  destruct K1 as [[Hn _] | (id & Hid & Hp & _)]; [congruence|].
  exact (K3 id Hp).
Defined.

(** A player's first run on a fresh browser, one pipe passed: the score
    is stored under both keys. *)
Example first_run_is_saved :
  run_summary
    <$> play 0 keys_one_pipe
          (after_first_frame 0 (boot (Some "Bob"%string) ∅))
  = Some (true, 1, 1, 1, 1,
          [("flappyPlaneBestScore_Bob"%string, 1); (bestScoreKey, 1)]).
Proof. vm_compute. reflexivity. Qed.

(** ** The end of a run *)

Lemma dispatch_reachable e g g' :
  reachable g -> dispatch e g = Some g' -> reachable g'.
Proof.
  intros Hg. destruct e as [r|code r|r|r|r]; cbn [dispatch]; intros H.
  - exact (reach_frame r g g' Hg H).
  - unfold onKeydown in H. destruct (String.eqb code "Space").
    + exact (reach_input r g g' Hg H).
    + now injection H as <-.
  - exact (reach_input r g g' Hg H).
  - exact (reach_input r g g' Hg H).
  - exact (reach_restart r g g' H).
Qed.

Lemma session_reachable es g g' :
  reachable g -> session es g = Some g' -> reachable g'.
Proof.
  revert g. induction es as [|e es IH]; intros g Hg; cbn [session].
  - now intros [= <-].
  - destruct (dispatch e g) as [g1|] eqn:E; [|discriminate].
    cbn [mbind option_bind]. apply IH. exact (dispatch_reachable e g g1 Hg E).
Qed.

Lemma Plane_update_this_energy this g :
  plane_ok this -> energy_ok this -> energy_ok (Plane_update_this this g).1.
Proof.
  intros (_ & _ & Hh & Hy0 & Hy1 & _) He.
  unfold energy_ok, Plane_update_this in *. cbn. rewrite Hh.
  Qcmp; cbn in *; rewrite ?Hh in *; Qconsts; nra.
Qed.

Lemma jump_energy p : plane_ok p -> energy_ok (Plane.jump p).
Proof.
  intros (_ & _ & _ & Hy0 & _). unfold energy_ok. cbn. Qconsts. nra.
Qed.

Lemma energy_speed p :
  energy_ok p -> (Plane.y p <= 490)%Q -> (Plane.velocity p <= 19)%Q.
Proof.
  unfold energy_ok. intros He Hy.
  destruct (Qlt_le_dec 19 (Plane.velocity p)) as [H|H]; [|exact H].
  exfalso. nra.
Qed.

Lemma pipe_hit_scored p o o' :
  scored_or_same p o o' -> forall q, pipe_hit q o' = pipe_hit q o.
Proof. intros [-> | (_ & _ & ->)] q; reflexivity. Qed.

Lemma Forall2_clear p l l' :
  Forall2 (scored_or_same p) l l' ->
  ~ Exists (fun o => pipe_hit p o = true) l ->
  Forall (fun o => pipe_hit p o = false) l'.
Proof.
  induction 1 as [|o o' l l' S _ IH]; intros Hno; [constructor|].
  constructor.
  - rewrite (pipe_hit_scored _ o o' S).
    destruct (pipe_hit p o) eqn:Eh; [|reflexivity].
    exfalso. apply Hno. now constructor.
  - apply IH. intros Hex. apply Hno. now constructor 2.
Qed.

Lemma after_first_frame_flight_inv r g :
  fair r -> flight_inv (after_first_frame r g).
Proof.
  intros [H0 H1]. split.
  - cbn. constructor; [|constructor]. apply gap_ok_update, gap_ok_new; assumption.
  - exists plane_after_first_frame. split; [reflexivity|].
    split; [apply plane_after_first_frame_ok|].
    split; [vm_compute; discriminate|].
    intros _. cbn. constructor; [|constructor]. reflexivity.
Qed.

Lemma update_flight_inv r g g' :
  fair r -> flight_inv g -> update r g = Some g' -> flight_inv g'.
Proof.
  intros [H0 H1] Hinv H.
  pose proof (dispatch_gap_ok (Frame r) g g' H0 H1 (proj1 Hinv) H) as Hgap.
  destruct Hinv as (_ & p & Hp & Hok & He & _).
  destruct (isGameOver g) eqn:Ho.
  { unfold update in H. rewrite Ho in H. injection H as <-.
    split; [exact Hgap|]. exists p. split; [exact Hp|].
    split; [exact Hok|]. split; [exact He|]. congruence. }
  destruct (frame_step r g p Ho Hp) as (g'' & E & Hp' & _ & HF & Hiff).
  rewrite H in E. injection E as <-.
  split; [exact Hgap|]. exists (Plane_update_this p g).1.
  split; [exact Hp'|]. split; [now apply Plane_update_this_plane_ok|].
  split; [now apply Plane_update_this_energy|].
  intros Ho'.
  assert (Hno : ~ Exists (fun o => pipe_hit (Plane_update_this p g).1 o = true)
                    (next_obstacles r g)).
  { intros Hex. assert (isGameOver g' = true) by (apply Hiff; now right).
    congruence. }
  exact (Forall2_clear _ _ _ HF Hno).
Qed.

Lemma handleInput_flight_inv r g g' :
  fair r -> flight_inv g -> handleInput r g = Some g' -> flight_inv g'.
Proof.
  intros Hr Hinv. unfold handleInput. destruct (isGameOver g) eqn:Ho.
  - rewrite startGame_eq. intros [= <-]. now apply after_first_frame_flight_inv.
  - destruct Hinv as (Hgap & p & Hp & Hok & He & Hclear). rewrite Hp.
    cbn [mbind option_bind]. intros [= <-].
    split; [exact Hgap|]. exists (Plane.jump p). split; [reflexivity|].
    split; [now apply jump_plane_ok|]. split; [now apply jump_energy|].
    intros _. exact (Hclear Ho).
Qed.

Lemma dispatch_flight_inv e g g' :
  fair (event_draw e) -> flight_inv g -> dispatch e g = Some g' ->
  flight_inv g'.
Proof.
  destruct e as [r|code r|r|r|r]; cbn [dispatch event_draw]; intros Hr Hinv H.
  - exact (update_flight_inv r g g' Hr Hinv H).
  - unfold onKeydown in H. destruct (String.eqb code "Space").
    + exact (handleInput_flight_inv r g g' Hr Hinv H).
    + now injection H as <-.
  - exact (handleInput_flight_inv r g g' Hr Hinv H).
  - exact (handleInput_flight_inv r g g' Hr Hinv H).
  - rewrite startGame_eq in H. injection H as <-.
    now apply after_first_frame_flight_inv.
Qed.

Lemma session_flight_inv es g g' :
  Forall (fun e => fair (event_draw e)) es ->
  flight_inv g -> session es g = Some g' -> flight_inv g'.
Proof.
  revert g. induction es as [|e es IH]; intros g Hes Hinv; cbn [session].
  - now intros [= <-].
  - destruct (dispatch e g) as [g1|] eqn:E; [|discriminate].
    cbn [mbind option_bind]. inversion Hes as [|? ? Hr Hes']; subst.
    apply IH; [exact Hes'|]. exact (dispatch_flight_inv e g g1 Hr Hinv E).
Qed.

(** A frame in which the plane reaches the ground scores nothing: the
    obstacle that would be passed in it still overlapped the plane one
    frame earlier, so the plane was in its gap, at most at [y = 490], and
    no speed the plane can have takes it from there to the ground in one
    frame. *)
Lemma ground_frame_scores_nothing r g g' p :
  run_inv g -> flight_inv g ->
  isGameOver g = false -> plane g = Some p ->
  update r g = Some g' ->
  Qgtb (Plane.y p + (Plane.velocity p + GRAVITY) + Plane.height p)
    (CANVAS_HEIGHT - 30) = true ->
  score g' = score g.
Proof.
  intros Hrun Hfl Ho Hp H Hground.
  pose proof (update_run_inv r g g' Hrun H) as Hrun'.
  destruct (frame_step r g p Ho Hp) as (g'' & E & _ & Hfc & _).
  rewrite H in E. injection E as <-.
  destruct Hrun as (_ & _ & m & a & Hm & Ha & Ht & Hpipes & Hs).
  destruct Hrun' as (_ & _ & _ & _ & _ & _ & _ & _ & Hs').
  destruct (score_of_frames m a Hm Ha) as (_ & _ & _ & _ & Hsc).
  cbn zeta in Hsc. rewrite <- Ht in Hsc.
  rewrite Hs', Hfc, Hsc, <- Hs.
  destruct ((1 <=? (if a =? 90 then m + 1 else m))
            && ((if a =? 90 then 1 else a + 1) =? 44)) eqn:C; [|lia].
  exfalso. apply andb_true_iff in C as [C1 C2].
  destruct (Z.eqb_spec a 90) as [->|Hne]; [discriminate C2|].
  apply Z.leb_le in C1. apply Z.eqb_eq in C2.
  assert (a = 43) by lia. subst a.
  unfold pipes_at in Hpipes.
  replace ((1 <=? m) && (43 <=? 60)) with true in Hpipes
    by (destruct (Z.leb_spec 1 m); [reflexivity|lia]).
  destruct Hpipes as (o2 & o1 & Hobs & [[Hx2 Hw2] _] & _).
  destruct Hfl as (Hgap & p' & Hp' & Hok & He & Hclear).
  rewrite Hp in Hp'. injection Hp' as <-.
  specialize (Hclear Ho). rewrite Hobs in Hclear, Hgap.
  inversion Hclear as [|? ? Hhit _]; subst.
  inversion Hgap as [|? ? (_ & Htop & Hbot & _) _]; subst.
  destruct Hok as (Hpx & Hpw & Hph & Hy0 & Hy1 & _).
  apply Qgtb_gt in Hground.
  assert (Hy : (Plane.y p + 30 <= Obstacle.bottomY o2)%Q).
  { revert Hhit. unfold pipe_hit. rewrite Hpx, Hpw, Hph, Hw2.
    replace (Qgtb (50 + 40) (Obstacle.x o2)) with true
      by (symmetry; apply Qgtb_gt; Qconsts;
          change (inject_Z (43 + 90)) with 133%Q in Hx2; lra).
    replace (Qltb 50 (Obstacle.x o2 + PIPE_WIDTH)) with true
      by (symmetry; apply Qltb_lt; Qconsts;
          change (inject_Z (43 + 90)) with 133%Q in Hx2; lra).
    cbn [andb]. intros Hor. apply orb_false_iff in Hor as [_ Hb].
    now apply Qgtb_le in Hb. }
  assert (Hv : (Plane.velocity p <= 19)%Q) by (apply energy_speed; [exact He|lra]).
  rewrite Hph in Hground. Qconsts. lra.
Qed.

(** The best score a frame leaves behind when it ends the run. *)
Lemma update_best_when_over r g g' p :
  isGameOver g = false -> plane g = Some p ->
  update r g = Some g' -> isGameOver g' = true ->
  let s :=
    if Qgtb (Plane.y p + (Plane.velocity p + GRAVITY) + Plane.height p)
         (CANVAS_HEIGHT - 30)
    then score g else score g' in
  bestScore g' = Z.max (bestScore g) s /\
  (storedBest g = bestScore g -> storedBest g' = Z.max (storedBest g) s).
Proof.
  intros Ho Hp H Hover.
  destruct (update_running r g g' Ho H)
    as (this & g1 & this' & hit & Hp0 & E1 & E5).
  cbn zeta in E5. rewrite Hp in Hp0. injection Hp0 as <-.
  pose proof (Plane_update_this_over p g Ho) as Hg.
  pose proof (Plane_update_this_effect p g) as Hg1.
  rewrite E1 in Hg, Hg1. cbn [snd] in Hg, Hg1.
  destruct Hg1 as (_ & _ & _ & Hg1).
  set (g4 := set_obstacles _ _) in E5.
  rewrite (checkCollision_spec g4 this' eq_refl) in E5.
  destruct (checkCollision_loop this' (obstacles g4) (score g4))
    as [[h obs'] s'].
  injection E5 as _ <-.
  set (g5 := set_score s' (set_obstacles obs' g4)) in *.
  assert (BS5 : bestScore g5 = bestScore g1) by reflexivity.
  assert (O5 : isGameOver g5 = isGameOver g1) by reflexivity.
  assert (L5 : storedBest g5 = storedBest g1) by reflexivity.
  cbn zeta.
  destruct (Qgtb _ _) eqn:Eg.
  - (* on the ground *)
    destruct Hg1 as [-> | [_ ->]]; [congruence|].
    assert (E : (if h then gameOver g5 else g5) = g5).
    { destruct h; [|reflexivity]. apply gameOver_when_over. congruence. }
    rewrite E, BS5, L5.
    split; [now apply gameOver_bestScore_max|].
    intros Hs. now apply gameOver_storedBest_max.
  - (* on a pipe *)
    destruct Hg1 as [-> | [_ ->]];
      [|rewrite gameOver_is_over in Hg; discriminate].
    destruct h; [|congruence].
    assert (O5' : isGameOver g5 = false) by congruence.
    destruct (gameOver_keeps g5) as (_ & _ & -> & _).
    rewrite (gameOver_bestScore_max g5 O5'), BS5.
    split; [reflexivity|]. intros Hs.
    destruct (gameOver_storedBest_max g5 O5') as [-> _]; [congruence|].
    now rewrite L5.
Qed.

(** X18: the best score kept is the final score of the run.  In a game
    started with [startGame] and played by any events with draws in
    [[0, 1)], the frame that ends the run leaves [bestScore] equal to the
    maximum of its old value and the score shown at game-over, and the
    stored overall best likewise if it agreed with [bestScore] before:
    the plane cannot reach the ground in the very frame in which it passes
    a pipe, so no point is counted after the best score was saved. *)
Theorem saved_best_is_final_score (es : list event) (r0 r : Q)
    (g0 g g' : Game) :
  fair r0 ->
  Forall (fun e => fair (event_draw e)) es ->
  session es (after_first_frame r0 g0) = Some g ->
  isGameOver g = false ->
  update r g = Some g' ->
  isGameOver g' = true ->
  bestScore g' = Z.max (bestScore g) (score g') /\
  (storedBest g = bestScore g ->
   storedBest g' = Z.max (storedBest g) (score g')).
Proof.
  intros Hr0 Hes E Ho H Hover.
  assert (Hreach : reachable g).
  { apply (session_reachable es (after_first_frame r0 g0)); [|exact E].
    exact (reach_restart r0 g0 _ (startGame_eq r0 g0)). }
  pose proof (reachable_run_inv g Hreach) as Hrun.
  pose proof (session_flight_inv es _ g Hes
                (after_first_frame_flight_inv r0 g0 Hr0) E) as Hfl.
  destruct Hrun as ((p & Hp & Hok) & Hrest).
  pose proof (update_best_when_over r g g' p Ho Hp H Hover) as Hbest.
  cbn zeta in Hbest.
  destruct (Qgtb _ _) eqn:Eg; [|exact Hbest].
  rewrite <- (ground_frame_scores_nothing r g g' p
                (conj (ex_intro _ p (conj Hp Hok)) Hrest) Hfl Ho Hp H Eg)
    in Hbest.
  exact Hbest.
Qed.

Lemma keys_events_fair keys :
  Forall (fun e => fair (event_draw e)) (keys_events keys).
Proof.
  assert (H0 : fair 0) by (split; [apply Qle_refl|reflexivity]).
  induction keys as [|key keys IH]; [constructor|].
  change (keys_events (key :: keys))
    with ((if key then [Click 0; Frame 0] else [Frame 0]) ++ keys_events keys).
  apply Forall_app. split; [|exact IH].
  destruct key.
  - constructor; [exact H0|]. constructor; [exact H0|constructor].
  - constructor; [exact H0|constructor].
Qed.

(** A first run on a fresh browser: the frame that ends it on the second
    pipe stores the final score 1. *)
Lemma saved_best_is_final_score_witness :
  exists g g',
    session (keys_events (take 192 keys_one_pipe))
      (after_first_frame 0 (boot (Some "Bob"%string) ∅)) = Some g /\
    update 0 g = Some g' /\
    bestScore g' = Z.max (bestScore g) (score g') /\
    bestScore g' = 1.
Proof.
  assert (H : (g ← session (keys_events (take 192 keys_one_pipe))
                     (after_first_frame 0 (boot (Some "Bob"%string) ∅));
               g' ← update 0 g;
               Some (isGameOver g, isGameOver g', bestScore g'))
              = Some (false, true, 1))
    by (vm_compute; reflexivity).
  destruct (session (keys_events (take 192 keys_one_pipe))
              (after_first_frame 0 (boot (Some "Bob"%string) ∅)))
    as [g|] eqn:E; [|discriminate H].
  cbn [mbind option_bind] in H.
  destruct (update 0 g) as [g'|] eqn:E'; [|discriminate H].
  cbn [mbind option_bind] in H. injection H as Ho Ho' Hb.
  exists g, g'. split; [reflexivity|]. split; [exact E'|].
  split; [|exact Hb].
  apply (saved_best_is_final_score (keys_events (take 192 keys_one_pipe))
           0 0 (boot (Some "Bob"%string) ∅) g g'); auto.
  - split; [apply Qle_refl|reflexivity].
  - apply keys_events_fair.
Defined.
